(** * SD card informer: file tree model and presence state machine

    Shallow embedding of [old_buddy/informers/sd_card.py].

    Python objects live in an explicit object store (a list indexed by
    reference), because [InternalFileTree] nodes are shared between the
    children dictionary of their parent and the descendants sets of all
    their ancestors, and because set membership in Python depends on
    object identity whenever a class does not define [__eq__].

    The methods of [SDCard] run in a small state-and-exception monad over a
    [World] that holds the object store, the fields of the [SDCard]
    instance, the replies the instruction queue is going to give, and the
    trace of observable effects (log records, enqueued instructions,
    waits, signals).

    The poller's cycle [_update] and the listener's callback [sd_inserted]
    are two operations on that world; a notification that arrives in the
    middle of a cycle is not represented. *)

From Stdlib Require Import ZArith String Ascii List Bool Lia.
From stdpp Require Import base list strings.
Import ListNotations.

Local Open Scope string_scope.
Local Open Scope Z_scope.

(** ** Python [str] methods used by the source

    A string is a sequence of characters with code points below 256; the
    printer's listing is ASCII text. *)
Module Str.

(** [s.lstrip(c)] for a one-character [c]. *)
Fixpoint lstrip (c : ascii) (s : string) : string :=
  match s with
  | EmptyString => EmptyString
  | String a s' => if Ascii.eqb a c then lstrip c s' else s
  end.

(** [s.rstrip(c)] for a one-character [c]. *)
Fixpoint rstrip (c : ascii) (s : string) : string :=
  match s with
  | EmptyString => EmptyString
  | String a s' =>
      match rstrip c s' with
      | EmptyString => if Ascii.eqb a c then EmptyString else String a EmptyString
      | r => String a r
      end
  end.

(** [s.strip(c)]. *)
Definition strip (c : ascii) (s : string) : string := rstrip c (lstrip c s).

(** The text before the first [c] and, when there is a [c], the text
    after it. *)
Fixpoint partition (c : ascii) (s : string) : string * option string :=
  match s with
  | EmptyString => (EmptyString, None)
  | String a s' =>
      if Ascii.eqb a c then (EmptyString, Some s')
      else let (before, after) := partition c s' in (String a before, after)
  end.

(** [s.split(c, 1)]: one or two parts. *)
Definition split1 (c : ascii) (s : string) : list string :=
  match partition c s with
  | (before, None) => [before]
  | (before, Some after) => [before; after]
  end.

(** [s.split(c)]: split at every occurrence, empty parts kept. *)
Fixpoint split (c : ascii) (s : string) : list string :=
  match s with
  | EmptyString => [EmptyString]
  | String a s' =>
      if Ascii.eqb a c then EmptyString :: split c s'
      else match split c s' with
           | hd :: tl => String a hd :: tl
           | [] => [String a EmptyString]
           end
  end.

Definition lower_char (a : ascii) : ascii :=
  let n := nat_of_ascii a in
  if ((Nat.leb 65 n && Nat.leb n 90)
      || (Nat.leb 192 n && Nat.leb n 222 && negb (Nat.eqb n 215)))%bool
  then ascii_of_nat (n + 32)
  else a.

(** [s.lower()] *)
Fixpoint lower (s : string) : string :=
  match s with
  | EmptyString => EmptyString
  | String a s' => String (lower_char a) (lower s')
  end.

(** [sep.join(parts)]. *)
Fixpoint join (sep : string) (parts : list string) : string :=
  match parts with
  | [] => EmptyString
  | [p] => p
  | p :: rest => p ++ sep ++ join sep rest
  end.

(** The characters [int] skips around the number. *)
Definition is_space (a : ascii) : bool :=
  let n := nat_of_ascii a in
  ((Nat.leb 9 n && Nat.leb n 13) || Nat.eqb n 32 || Nat.eqb n 133 || Nat.eqb n 160)%bool.

Definition digit_of (a : ascii) : option Z :=
  let n := nat_of_ascii a in
  if (Nat.leb 48 n && Nat.leb n 57)%bool then Some (Z.of_nat (n - 48)) else None.

Fixpoint lstrip_space (s : string) : string :=
  match s with
  | EmptyString => EmptyString
  | String a s' => if is_space a then lstrip_space s' else s
  end.

Fixpoint rstrip_space (s : string) : string :=
  match s with
  | EmptyString => EmptyString
  | String a s' =>
      match rstrip_space s' with
      | EmptyString => if is_space a then EmptyString else String a EmptyString
      | r => String a r
      end
  end.

(** Decimal digits, single underscores allowed between two digits.
    [after_digit] tells whether the previous character was a digit. *)
Fixpoint int_digits (acc : Z) (after_digit : bool) (s : string) : option Z :=
  match s with
  | EmptyString => if after_digit then Some acc else None
  | String a s' =>
      match digit_of a with
      | Some d => int_digits (10 * acc + d) true s'
      | None =>
          if (Ascii.eqb a "_" && after_digit)%bool
          then int_digits acc false s'
          else None
      end
  end.

(** [int(s)] in base ten: surrounding white space, an optional sign,
    digits. [None] stands for the [ValueError] Python raises. Interpreters
    from 3.11 on raise it as well, by default, for a text with more than
    4300 digits; that limit is not part of this definition, and a statement
    that depends on it bounds the length of the text. *)
Definition int (s : string) : option Z :=
  match rstrip_space (lstrip_space s) with
  | String "+" r => int_digits 0 false r
  | String "-" r => Z.opp <$> int_digits 0 false r
  | t => int_digits 0 false t
  end.

End Str.

Local Open Scope list_scope.

(** ** Data *)

(** Modelled from the spec: the enumeration [FileType] of
    [old_buddy.structures.model_classes], whose declaration is not part of
    the sources at hand. The spec lists the kinds directory, file and mount;
    the member names are the ones the source uses. *)
Inductive FileType := DIR | FILE | MOUNT.

(** [FileType.X.name] *)
Definition FileType_name (t : FileType) : string :=
  match t with DIR => "DIR" | FILE => "FILE" | MOUNT => "MOUNT" end.

(** Modelled from the spec: the class [FileTree] of
    [old_buddy.structures.model_classes], the tree handed to the consumers
    of the signals. Its fields are the attributes [to_api_file_tree]
    assigns; [children] is [None] when there are none. *)
#[warnings="-register-all"]
Inductive FileTree := mkFileTree {
  api_type : string;
  api_path : string;
  api_ro : option bool;
  api_size : option Z;
  api_m_date : option Z;
  api_m_time : option Z;
  api_children : option (list FileTree)
}.

(** A reference to an object: its index in the object store. Two
    references are the same object ([is]) iff they are equal. *)
Definition ref := nat.

(** An [InternalFileTree] instance. Every construction site of the source
    passes [file_type] and [path], so these two are not optional here.
    [descendants_set] is a Python set, kept as the list of its elements
    without repetition; [children_dict] a Python dict, kept in insertion
    order. *)
Record InternalFileTree := mkInternalFileTree {
  type : FileType;
  path : string;
  ro : option bool;
  size : option Z;
  m_date : option Z;
  m_time : option Z;
  descendants_set : list ref;
  children_dict : list (string * ref);
  _parent : option ref;
  full_path : string
}.

Inductive SDState := PRESENT | INITIALISING | UNSURE | ABSENT.

Definition SDState_eqb (a b : SDState) : bool :=
  match a, b with
  | PRESENT, PRESENT | INITIALISING, INITIALISING
  | UNSURE, UNSURE | ABSENT, ABSENT => true
  | _, _ => false
  end.

(** The fields of an [SDCard] instance the methods read and write.
    [file_tree] is [None] as long as the attribute has not been assigned:
    [__init__] does not assign it. *)
Record SDCard := mkSDCard {
  expecting_insertion : bool;
  sd_state : SDState;
  file_tree : option ref
}.

(** Modelled from the spec: a resolved (or abandoned) instruction handle of
    the instruction queue, [old_buddy.input_output.serial_queue], which is
    not part of the sources at hand. A collecting instruction exposes the
    captured lines (the [string] of each captured match, in order); a
    matchable one a confirmation flag and the result of matching the
    presence pattern: [None] when the pattern does not match, otherwise the
    first group, itself [None] when the group did not take part. *)
Record Collected := mkCollected {
  captured_matches : list string
}.

Record Matchable := mkMatchable {
  is_confirmed : bool;
  match_SD_PRESENT : option (option string)
}.

(** Log records, one constructor per [log] call of the source, with the
    values its message is formatted from; the text itself is not rendered
    (so [__str__], used only for one of these messages, has no
    counterpart). *)
Inductive LogMsg :=
| ChildAdded (child_path : string)
| ParsingLine (line : string)
| FileInDirectory (dir_path : string)
| AddedFile (file_path : string) (file_size : Z)
| FileChanged (at_path : string)
| FileRemoved (at_path : string)
| FileCreated (at_path : string)
| SDStateChangedFromTo (old new : SDState)
| SDCardInserted
| SDCardRemoved
| SanityCheckFailed
| ConstructedTree (tree : ref)
| FailedDeterminingPresence.

Inductive LogLevel := DEBUG | ERROR.

(** Observable effects, in the order they happen. *)
Inductive Event :=
| Log (level : LogLevel) (msg : LogMsg)
| Enqueued (gcode : string)
| Waited (gcode : string)
| updated_signal (tree : FileTree) (state : SDState)
| inserted_signal (root : string) (files : FileTree)
| ejected_signal (root : string).

Record World := mkWorld {
  heap : list InternalFileTree;
  self : SDCard;
  listings : list Collected;
  probes : list Matchable;
  trace : list Event
}.

(** ** Outcomes and the monad *)

Inductive Exn := ValueError | AttributeError | KeyError | OverflowError.

(** [Stuck] is not a Python outcome: it marks a run that followed a
    reference outside the store or used up the fuel of a loop or of a
    recursion. [run_never_stuck] shows that no run of the instance gets
    there. *)
Inductive Outcome (A : Type) :=
| Ok (a : A)
| Raise (e : Exn)
| Stuck.
Arguments Ok {A} a.
Arguments Raise {A} e.
Arguments Stuck {A}.

Definition Outcome_bind {A B} (f : A -> Outcome B) (x : Outcome A) : Outcome B :=
  match x with
  | Ok a => f a
  | Raise e => Raise e
  | Stuck => Stuck
  end.

#[global] Instance Outcome_ret : MRet Outcome := fun A a => Ok a.
#[global] Instance Outcome_mbind : MBind Outcome := fun A B f x => Outcome_bind f x.

Definition M (A : Type) : Type := World -> Outcome A * World.

Definition M_bind {A B} (f : A -> M B) (m : M A) : M B :=
  fun w => match m w with
           | (Ok a, w') => f a w'
           | (Raise e, w') => (Raise e, w')
           | (Stuck, w') => (Stuck, w')
           end.

#[global] Instance M_ret : MRet M := fun A a w => (Ok a, w).
#[global] Instance M_mbind : MBind M := fun A B f m => M_bind f m.

Definition raise {A} (e : Exn) : M A := fun w => (Raise e, w).
Definition stuck {A} : M A := fun w => (Stuck, w).

Definition get_heap : M (list InternalFileTree) := fun w => (Ok (heap w), w).
Definition get_self : M SDCard := fun w => (Ok (self w), w).

Definition put_heap (h : list InternalFileTree) : M unit :=
  fun w => (Ok tt, mkWorld h (self w) (listings w) (probes w) (trace w)).

Definition put_self (s : SDCard) : M unit :=
  fun w => (Ok tt, mkWorld (heap w) s (listings w) (probes w) (trace w)).

Definition emit (e : Event) : M unit :=
  fun w => (Ok tt, mkWorld (heap w) (self w) (listings w) (probes w) (trace w ++ [e])).

Definition log_debug (m : LogMsg) : M unit := emit (Log DEBUG m).
Definition log_error (m : LogMsg) : M unit := emit (Log ERROR m).

(** Run a computation that only reads the store. *)
Definition read {A} (f : list InternalFileTree -> Outcome A) : M A :=
  fun w => (f (heap w), w).

(** [for x in xs: body(x)] *)
Fixpoint for_each {A} (xs : list A) (body : A -> M unit) : M unit :=
  match xs with
  | [] => mret tt
  | x :: rest => body x ;; for_each rest body
  end.

(** The object behind a reference. *)
Definition deref (h : list InternalFileTree) (r : ref) : Outcome InternalFileTree :=
  match h !! r with
  | Some o => Ok o
  | None => Stuck
  end.

Definition load (r : ref) : M InternalFileTree := read (fun h => deref h r).

(** An assignment to attributes of the object behind [r], or a change
    made in place to one of its containers. *)
Definition modify (r : ref) (f : InternalFileTree -> InternalFileTree) : M unit :=
  o ← load r; h ← get_heap; put_heap (<[r := f o]> h).

(** A new object at the end of the store. *)
Definition alloc (o : InternalFileTree) : M ref :=
  h ← get_heap; put_heap (h ++ [o]) ;; mret (length h).

(** ** Python numbers *)

(** [a / b] between two [int]s is a float: the quotient rounded to the
    nearest double, ties to even. [OverflowError] is raised when the
    rounded quotient has magnitude [2^1024] or more, that is when the
    quotient reaches [2^1024 - 2^970], half a unit in the last place above
    the largest double. For a positive [b]: *)
Definition true_div_overflows (a b : Z) : bool :=
  (b * (2 ^ 1024 - 2 ^ 970) <=? Z.abs a)%Z.

Arguments true_div_overflows : simpl never.

(** ** Python containers *)

(** Iterating over a Python [set] visits the elements in the order of its
    hash table. The hash of a node is the hash of a tuple that holds a
    member of an [Enum], hashed by its name, and the hash of a string
    changes with the hash seed of the interpreter: the program does not
    determine the order. The elements of [s] in the order the environment
    picks: each entry of [order] selects, by its remainder, one of the
    elements not yet visited; when [order] runs out the rest follows as
    stored. *)
Fixpoint set_iter {A} (order : list nat) (s : list A) : list A :=
  match order with
  | [] => s
  | k :: order' =>
      let i := (k mod length s)%nat in
      match s !! i with
      | Some x => x :: set_iter order' (delete i s)
      | None => s
      end
  end.

#[global] Instance FileType_eq_dec : EqDecision FileType.
Proof. solve_decision. Defined.

(** A dict with [str] keys, in insertion order. *)
Fixpoint dict_get {V} (k : string) (d : list (string * V)) : option V :=
  match d with
  | [] => None
  | (k', v) :: rest => if String.eqb k' k then Some v else dict_get k rest
  end.

(** [d[k] = v]: an existing key keeps its place, a new one goes last. *)
Fixpoint dict_set {V} (k : string) (v : V) (d : list (string * V)) : list (string * V) :=
  match d with
  | [] => [(k, v)]
  | (k', v') :: rest =>
      if String.eqb k' k then (k, v) :: rest else (k', v') :: dict_set k v rest
  end.

(** [k in d] *)
Definition dict_contains {V} (k : string) (d : list (string * V)) : bool :=
  match dict_get k d with Some _ => true | None => false end.

(** [list(d.values())] *)
Definition dict_values {V} (d : list (string * V)) : list V := map snd d.

(** A set of [str]. *)
Definition str_set_contains (s : list string) (x : string) : bool :=
  existsb (String.eqb x) s.

Definition str_set_add (s : list string) (x : string) : list string :=
  if str_set_contains s x then s else s ++ [x].

Definition str_set_of_list (xs : list string) : list string :=
  fold_left str_set_add xs [].

Definition str_set_intersection (s1 s2 : list string) : list string :=
  List.filter (str_set_contains s2) s1.

(** ** [class InternalFileTree] *)
Module InternalFileTree.

Definition with_full_path (fp : string) (o : InternalFileTree) : InternalFileTree :=
  mkInternalFileTree (type o) (path o) (ro o) (size o) (m_date o) (m_time o)
    (descendants_set o) (children_dict o) (_parent o) fp.

Definition with_parent (p : option ref) (o : InternalFileTree) : InternalFileTree :=
  mkInternalFileTree (type o) (path o) (ro o) (size o) (m_date o) (m_time o)
    (descendants_set o) (children_dict o) p (full_path o).

Definition with_children_dict (d : list (string * ref)) (o : InternalFileTree)
  : InternalFileTree :=
  mkInternalFileTree (type o) (path o) (ro o) (size o) (m_date o) (m_time o)
    (descendants_set o) d (_parent o) (full_path o).

Definition with_descendants_set (s : list ref) (o : InternalFileTree)
  : InternalFileTree :=
  mkInternalFileTree (type o) (path o) (ro o) (size o) (m_date o) (m_time o)
    s (children_dict o) (_parent o) (full_path o).

(** [__hash__]: the hash of the tuple, kept as the tuple itself. *)
Definition __hash__ (o : InternalFileTree)
  : FileType * option bool * option Z * option Z * option Z :=
  (type o, ro o, size o, m_date o, m_time o).

(** The class defines no [__eq__], so [==] between two instances is the
    one inherited from [object]: identity. *)
Definition __eq__ (a b : ref) : bool := Nat.eqb a b.

Definition hash (h : list InternalFileTree) (r : ref) :=
  __hash__ <$> (h !! r).

(** The test a Python set makes between a stored element and a
    candidate: the hashes are equal, and the two are the same object or
    compare equal. *)
Definition set_match (h : list InternalFileTree) (x y : ref) : bool :=
  bool_decide (hash h x = hash h y) && (Nat.eqb x y || __eq__ x y).

(** [x in s] *)
Definition set_contains (h : list InternalFileTree) (s : list ref) (x : ref) : bool :=
  existsb (fun y => set_match h y x) s.

(** [s.add(x)] *)
Definition set_add (h : list InternalFileTree) (s : list ref) (x : ref) : list ref :=
  if set_contains h s x then s else s ++ [x].

(** [s1.difference(s2)] *)
Definition set_difference (h : list InternalFileTree) (s1 s2 : list ref) : list ref :=
  List.filter (fun x => negb (set_contains h s2 x)) s1.

(** The loop of [get_full_path]; [fuel] bounds its iterations. *)
Fixpoint get_full_path_loop (fuel : nat) (h : list InternalFileTree)
    (current_node : ref) (segments : list string) : Outcome (list string) :=
  match fuel with
  | O => Stuck
  | S fuel' =>
      o ← deref h current_node;
      match _parent o with
      | None => Ok segments
      | Some p => get_full_path_loop fuel' h p (segments ++ [path o])
      end
  end.

Definition get_full_path (self : ref) : M string :=
  read (fun h =>
          segments ← get_full_path_loop (S (length h)) h self [];
          Ok ("/" +:+ Str.join "/" (rev segments))).

Definition __init__ (file_type : FileType) (path : string) (ro : option bool)
    (size m_date m_time : option Z) (parent : option ref) : M ref :=
  self ← alloc (mkInternalFileTree file_type path ro size m_date m_time
                  [] [] parent EmptyString);
  fp ← get_full_path self;
  modify self (with_full_path fp) ;;
  mret self.

Definition new_root_node : M ref :=
  __init__ DIR "sd_card" None None None None None.

(** [__bool__] *)
Definition __bool__ (self : ref) : M bool :=
  o ← load self;
  mret (match descendants_set o with [] => false | _ => true end).

(** The setter of the [parent] property. *)
Definition set_parent (self : ref) (parent : option ref) : M unit :=
  modify self (with_parent parent) ;;
  fp ← get_full_path self;
  modify self (with_full_path fp).

Definition add_child (self child : ref) : M ref :=
  c ← load child;
  modify self (fun s =>
    with_children_dict (dict_set (path c) child (children_dict s)) s) ;;
  c ← load child;
  match _parent c with
  | None => set_parent child (Some self)
  | Some _ => mret tt
  end ;;
  log_debug (ChildAdded (path c)) ;;
  mret child.

(** [child_from_path]; [fuel] bounds the depth of the recursion. The text
    of the record "Added a file" holds [size / 1000], computed before the
    record is logged and before the child is added. *)
Fixpoint child_from_path (fuel : nat) (self : ref) (line : string) : M ref :=
  match fuel with
  | O => stuck
  | S fuel' =>
      log_debug (ParsingLine line) ;;
      let clean_line := Str.strip "/" line in
      let parts := Str.split1 "/" clean_line in
      added_child ←
        match parts with
        | [path; rest] =>
            s ← load self;
            (if negb (dict_contains path (children_dict s))
             then child ← __init__ DIR path None None None None None;
                  add_child self child ;; mret tt
             else mret tt) ;;
            log_debug (FileInDirectory path) ;;
            s ← load self;
            match dict_get path (children_dict s) with
            | Some c => child_from_path fuel' c rest
            | None => raise KeyError
            end
        | _ =>
            match Str.split " " (hd EmptyString parts) with
            | [path; str_size] =>
                match Str.int str_size with
                | Some size =>
                    child ← __init__ FILE path None (Some size) None None None;
                    (if true_div_overflows size 1000
                     then raise OverflowError
                     else log_debug (AddedFile path size)) ;;
                    add_child self child
                | None => raise ValueError
                end
            | _ => raise ValueError
            end
        end;
      h ← get_heap;
      modify self (fun s =>
        with_descendants_set (set_add h (descendants_set s) added_child) s) ;;
      mret added_child
  end.

(** The two sets [diff] computes first, as the source computes them: for
    [new_files] the receiver is [self] and the argument [other_tree], as
    for [removed_files]. *)
Definition diff_removed_files (h : list InternalFileTree) (self other_tree : ref)
  : Outcome (list ref) :=
  a ← deref h self;
  b ← deref h other_tree;
  Ok (set_difference h (descendants_set a) (descendants_set b)).

Definition diff_new_files (h : list InternalFileTree) (self other_tree : ref)
  : Outcome (list ref) :=
  a ← deref h self;
  b ← deref h other_tree;
  Ok (set_difference h (descendants_set a) (descendants_set b)).

Definition full_paths (h : list InternalFileTree) (files : list ref)
  : Outcome (list string) :=
  ps ← mapM (fun f => o ← deref h f; Ok (full_path o)) files;
  Ok (str_set_of_list ps).

(** [diff]. The two loops run over sets: [order_removed] and [order_new]
    are the orders in which the environment lets them visit their
    elements. The two sets of paths are only asked for membership. *)
Definition diff (order_removed order_new : list nat) (self other_tree : ref) : M unit :=
  removed_files ← read (fun h => diff_removed_files h self other_tree);
  new_files ← read (fun h => diff_new_files h self other_tree);
  removed_paths ← read (fun h => full_paths h removed_files);
  new_paths ← read (fun h => full_paths h new_files);
  let changed_file_paths := str_set_intersection removed_paths new_paths in
  for_each (set_iter order_removed removed_files) (fun file =>
    o ← load file;
    if str_set_contains changed_file_paths (full_path o)
    then log_debug (FileChanged (full_path o))
    else log_debug (FileRemoved (full_path o))) ;;
  for_each (set_iter order_new new_files) (fun file =>
    o ← load file;
    if negb (str_set_contains changed_file_paths (full_path o))
    then log_debug (FileCreated (full_path o))
    else mret tt).

(** [to_api_file_tree]; [fuel] bounds the depth of the recursion. *)
Fixpoint to_api_file_tree_rec (fuel : nat) (h : list InternalFileTree) (self : ref)
  : Outcome FileTree :=
  match fuel with
  | O => Stuck
  | S fuel' =>
      o ← deref h self;
      let unconverted_children := dict_values (children_dict o) in
      children ← mapM (to_api_file_tree_rec fuel' h) unconverted_children;
      Ok (mkFileTree (FileType_name (type o)) (path o) (ro o) (size o)
            (m_date o) (m_time o)
            (match children with [] => None | _ => Some children end))
  end.

Definition to_api_file_tree (self : ref) : M FileTree :=
  read (fun h => to_api_file_tree_rec (S (length h)) h self).

End InternalFileTree.

(** ** [class SDCard] *)
Module SDCard.

(** [__init__]: the guard is clear, the state is [UNSURE], and
    [file_tree] is not assigned. *)
Definition __init__ : SDCard := mkSDCard false UNSURE None.

(** The world right after construction, given what the instruction
    queue is going to answer. *)
Definition boot (ls : list Collected) (ps : list Matchable) : World :=
  mkWorld [] __init__ ls ps [].

Definition set_expecting_insertion (b : bool) : M unit :=
  s ← get_self; put_self (mkSDCard b (sd_state s) (file_tree s)).

Definition set_sd_state (st : SDState) : M unit :=
  s ← get_self; put_self (mkSDCard (expecting_insertion s) st (file_tree s)).

Definition set_file_tree (t : ref) : M unit :=
  s ← get_self; put_self (mkSDCard (expecting_insertion s) (sd_state s) (Some t)).

(** Modelled from the spec: [enqueue_collecting] and [enqueue_matchable]
    of [old_buddy.input_output.serial_queue.helpers], not part of the
    sources at hand: the command is handed to the queue and a handle
    comes back. The handle is the command's text here. *)
Definition enqueue_collecting (gcode : string) : M string :=
  emit (Enqueued gcode) ;; mret gcode.

Definition enqueue_matchable (gcode : string) : M string :=
  emit (Enqueued gcode) ;; mret gcode.

(** Modelled from the spec: [wait_for_instruction] of the same module
    blocks until the handle resolves or the updater stops running. The
    next reply of the world is what the handle then shows; when the
    world has no reply left the wait was abandoned: nothing captured,
    nothing confirmed. *)
Definition next_listing : M Collected :=
  fun w => match listings w with
           | [] => (Ok (mkCollected []), w)
           | c :: rest =>
               (Ok c, mkWorld (heap w) (self w) rest (probes w) (trace w))
           end.

Definition next_probe : M Matchable :=
  fun w => match probes w with
           | [] => (Ok (mkMatchable false None), w)
           | m :: rest =>
               (Ok m, mkWorld (heap w) (self w) (listings w) rest (trace w))
           end.

Definition wait_for_collecting (instruction : string) : M Collected :=
  emit (Waited instruction) ;; next_listing.

Definition wait_for_matchable (instruction : string) : M Matchable :=
  emit (Waited instruction) ;; next_probe.

Definition sd_state_changed (new_state : SDState) : M unit :=
  s ← get_self;
  log_debug (SDStateChangedFromTo (sd_state s) new_state) ;;
  (if SDState_eqb (sd_state s) INITIALISING && SDState_eqb new_state PRESENT
   then
     log_debug SDCardInserted ;;
     match file_tree s with
     | None => raise AttributeError
     | Some t =>
         files ← InternalFileTree.to_api_file_tree t;
         emit (inserted_signal "/" files)
     end
   else if SDState_eqb (sd_state s) PRESENT
           && (SDState_eqb new_state ABSENT || SDState_eqb new_state INITIALISING)
   then
     log_debug SDCardRemoved ;;
     emit (ejected_signal "/")
   else mret tt) ;;
  set_sd_state new_state.

Definition sd_inserted : M unit :=
  s ← get_self;
  if expecting_insertion s
  then set_expecting_insertion false
  else sd_state_changed INITIALISING.

Definition decide_presence : M unit :=
  set_expecting_insertion true ;;
  instruction ← enqueue_matchable "M21";
  reply ← wait_for_matchable instruction;
  set_expecting_insertion false ;;
  if negb (is_confirmed reply)
  then log_debug FailedDeterminingPresence
  else
    match match_SD_PRESENT reply with
    | None => raise AttributeError
    | Some (Some _) =>
        s ← get_self;
        if negb (SDState_eqb (sd_state s) PRESENT)
        then sd_state_changed PRESENT
        else mret tt
    | Some None => sd_state_changed ABSENT
    end.

Definition construct_file_tree : M ref :=
  tree ← InternalFileTree.__init__ MOUNT "SD Card" (Some true) None None None None;
  s ← get_self;
  if SDState_eqb (sd_state s) ABSENT
  then mret tree
  else
    instruction ← enqueue_collecting "M20";
    reply ← wait_for_collecting instruction;
    for_each (captured_matches reply) (fun line =>
      let lowered := Str.lower line in
      InternalFileTree.child_from_path (S (String.length lowered)) tree lowered ;;
      mret tt) ;;
    log_debug (ConstructedTree tree) ;;
    mret tree.

Definition _update : M unit :=
  new_tree ← construct_file_tree;
  let unsure_states := [INITIALISING; UNSURE] in
  s ← get_self;
  (if existsb (SDState_eqb (sd_state s)) unsure_states
   then
     nonempty ← InternalFileTree.__bool__ new_tree;
     if nonempty : bool
     then sd_state_changed PRESENT
     else decide_presence
   else mret tt : M unit) ;;
  nonempty ← InternalFileTree.__bool__ new_tree;
  s ← get_self;
  (if negb nonempty && SDState_eqb (sd_state s) PRESENT
   then decide_presence
   else mret tt) ;;
  nonempty ← InternalFileTree.__bool__ new_tree;
  s ← get_self;
  (if nonempty && SDState_eqb (sd_state s) ABSENT
   then log_error SanityCheckFailed
   else mret tt) ;;
  set_file_tree new_tree ;;
  s ← get_self;
  api_file_tree ←
    match file_tree s with
    | Some t => InternalFileTree.to_api_file_tree t
    | None => raise AttributeError
    end;
  s ← get_self;
  emit (updated_signal api_file_tree (sd_state s)).

End SDCard.

(** ** Reading the trace *)

Definition is_inserted (e : Event) : bool :=
  match e with inserted_signal _ _ => true | _ => false end.

Definition is_ejected (e : Event) : bool :=
  match e with ejected_signal _ => true | _ => false end.

Definition is_wait (e : Event) : bool :=
  match e with Waited _ => true | _ => false end.

Definition is_probe (e : Event) : bool :=
  match e with Enqueued gcode => String.eqb gcode "M21" | _ => false end.

Definition inserted_events (tr : list Event) : list Event := List.filter is_inserted tr.
Definition ejected_events (tr : list Event) : list Event := List.filter is_ejected tr.
Definition waits (tr : list Event) : nat := length (List.filter is_wait tr).
Definition probe_requests (tr : list Event) : nat := length (List.filter is_probe tr).

(** ** Scenarios *)

(** Two trees built one after the other, as two cycles build them, from
    the listings the queue hands out. *)
Definition build_two (la lb : list string) : Outcome (ref * ref) * World :=
  (a ← SDCard.construct_file_tree;
   b ← SDCard.construct_file_tree;
   mret (a, b)) (SDCard.boot [mkCollected la; mkCollected lb] []).

(** A confirmed probe reply whose presence group matched. *)
Definition card_present (text : string) : Matchable := mkMatchable true (Some (Some text)).

(** A confirmed probe reply whose presence group did not take part. *)
Definition card_absent : Matchable := mkMatchable true (Some None).

(** The conversion of a tree without any entry. *)
Definition empty_mount : FileTree :=
  mkFileTree "MOUNT" "SD Card" (Some true) None None None None.

(** A first cycle that finds no card, then an insertion notification,
    then a cycle that lists one file. *)
Definition absent_then_inserted : Outcome unit * World :=
  (SDCard._update ;; SDCard.sd_inserted ;; SDCard._update)
    (SDCard.boot [mkCollected []; mkCollected ["x.gco 12"]] [card_absent]).

(** A line with a name and a size of 313 digits, 1 followed by 312 zeros:
    a number, but one whose thousandth is beyond the floats. *)
Fixpoint zeros (n : nat) : string :=
  match n with
  | O => EmptyString
  | S n' => String "0" (zeros n')
  end.

Definition huge_size : string := "1" +:+ zeros 312.

Definition huge_line : string := "benchy.gco " +:+ huge_size.

(** The node [construct_file_tree] starts from. *)
Definition mount_node : InternalFileTree :=
  mkInternalFileTree MOUNT "SD Card" (Some true) None None None [] [] None "/".

(** ** What building a tree leaves alone *)

(** The events tree building and the listing request may add to the
    trace: log records and the traffic of the listing command. *)
Definition is_listing_event (e : Event) : bool :=
  match e with
  | Log _ _ => true
  | Enqueued gcode | Waited gcode => String.eqb gcode "M20"
  | _ => false
  end.

(** The descendants set of the object behind [r] is not empty. *)
Definition nonempty_at (h : list InternalFileTree) (r : ref) : Prop :=
  exists o, h !! r = Some o /\ descendants_set o <> [].

(** [w'] comes after [w] by steps that keep the fields of the [SDCard]
    instance and the pending probe replies, add only listing events to the
    trace, and never empty a descendants set. *)
Record extends (w w' : World) : Prop := mkExtends {
  ext_self : self w' = self w;
  ext_probes : probes w' = probes w;
  ext_trace : exists evs, trace w' = trace w ++ evs
                          /\ forallb is_listing_event evs = true;
  ext_nonempty : forall r, nonempty_at (heap w) r -> nonempty_at (heap w') r
}.

Definition preserves {A} (m : M A) : Prop := forall w, extends w (snd (m w)).

(** ** Well-formed stores *)

(** The children of the object behind [r] were allocated after it and
    are in the store (of length [len]); its parent was allocated before
    it. *)
Definition wf_node (len : nat) (r : ref) (o : InternalFileTree) : Prop :=
  Forall (fun kc : string * ref => (r < snd kc < len)%nat) (children_dict o) /\
  match _parent o with
  | Some p => (p < r)%nat
  | None => True
  end.

Definition wf_heap (h : list InternalFileTree) : Prop :=
  forall r o, h !! r = Some o -> wf_node (length h) r o.

(** The store is well formed and the stored tree, if any, is in it. *)
Definition wf_world (w : World) : Prop :=
  wf_heap (heap w) /\
  match file_tree (self w) with
  | Some t => (t < length (heap w))%nat
  | None => True
  end.

(** The outcome is not [Stuck], and a returned value and its world
    satisfy [Q]. *)
Definition returns {A} (r : Outcome A * World) (Q : A -> World -> Prop) : Prop :=
  match r with
  | (Ok a, w') => Q a w'
  | (Raise _, _) => True
  | (Stuck, _) => False
  end.

(** What reaches the instance: the poller's cycle or an insertion
    notification. *)
Inductive Stimulus := Cycle | InsertionNotification.

Definition react (s : Stimulus) : M unit :=
  match s with
  | Cycle => SDCard._update
  | InsertionNotification => SDCard.sd_inserted
  end.


(** ** What tree building keeps *)

Definition is_debug_log (e : Event) : bool :=
  match e with Log DEBUG _ => true | _ => false end.

Definition is_error_log (e : Event) : bool :=
  match e with Log ERROR _ => true | _ => false end.

(** [w'] comes after [w] by steps of tree building: the instance and the
    pending replies are the same, the trace has gained debug records only,
    and every object of [w] is still there with the same fingerprint and
    the same name. *)
Record grows (w w' : World) : Prop := mkGrows {
  grows_self : self w' = self w;
  grows_listings : listings w' = listings w;
  grows_probes : probes w' = probes w;
  grows_trace : exists evs, trace w' = trace w ++ evs
                            /\ forallb is_debug_log evs = true;
  grows_length : (length (heap w) <= length (heap w'))%nat;
  grows_nodes : forall r o,
      heap w !! r = Some o ->
      exists o', heap w' !! r = Some o'
                 /\ InternalFileTree.__hash__ o' = InternalFileTree.__hash__ o
                 /\ path o' = path o
}.

Definition grower {A} (m : M A) : Prop := forall w, grows w (snd (m w)).


Definition is_updated (e : Event) : bool :=
  match e with updated_signal _ _ => true | _ => false end.

Definition updated_events (tr : list Event) : list Event := List.filter is_updated tr.


(** No node of a converted tree has an empty list of children: a node
    without children has [None]. *)
Fixpoint no_empty_children (t : FileTree) : Prop :=
  match t with
  | mkFileTree _ _ _ _ _ _ children =>
      match children with
      | None => True
      | Some cs =>
          cs <> [] /\
          (fix all (l : list FileTree) : Prop :=
             match l with
             | [] => True
             | c :: l' => no_empty_children c /\ all l'
             end) cs
      end
  end.


Definition is_changed_log (e : Event) : bool :=
  match e with Log DEBUG (FileChanged _) => true | _ => false end.

(** ** The model at work *)

Example int_examples :
  map Str.int ["1024"; " 12"; "-7"; "1_000"; "1__0"; "12kb"; EmptyString]
  = [Some 1024; Some 12; Some (-7); Some 1000; None; None; None].
Proof. reflexivity. Qed.

Example split_examples :
  Str.split1 "/" (Str.strip "/" "/documents/a.gcode 1024")
  = ["documents"; "a.gcode 1024"]
  /\ Str.split1 "/" (Str.strip "/" "c.gcode 10") = ["c.gcode 10"]
  /\ Str.split " " "a.gcode 1024" = ["a.gcode"; "1024"]
  /\ Str.split " " "my file 3" = ["my"; "file"; "3"].
Proof. repeat split. Qed.

(** The tree of the listing documents/a.gcode 1024, documents/b.gcode 2048,
    c.gcode 10: the file nodes are in the descendants set of every
    ancestor, the directory node is in none. *)
Example construct_file_tree_example :
  let '(r, w) :=
    SDCard.construct_file_tree
      (SDCard.boot [mkCollected ["documents/a.gcode 1024";
                                 "documents/b.gcode 2048";
                                 "c.gcode 10"]] []) in
  r = Ok 0%nat /\
  children_dict <$> heap w !! 0%nat = Some [("documents", 1%nat); ("c.gcode", 4%nat)] /\
  descendants_set <$> heap w !! 0%nat = Some [2; 3; 4]%nat /\
  children_dict <$> heap w !! 1%nat = Some [("a.gcode", 2%nat); ("b.gcode", 3%nat)] /\
  descendants_set <$> heap w !! 1%nat = Some [2; 3]%nat /\
  full_path <$> heap w = ["/"; "/documents"; "/documents/a.gcode";
                          "/documents/b.gcode"; "/c.gcode"] /\
  size <$> heap w = [None; None; Some 1024; Some 2048; Some 10].
Proof. vm_compute. repeat split. Qed.

(** ** Running the monad *)

Lemma bind_unfold {A B} (m : M A) (f : A -> M B) (w : World) :
  (m ≫= f) w = match m w with
               | (Ok a, w') => f a w'
               | (Raise e, w') => (Raise e, w')
               | (Stuck, w') => (Stuck, w')
               end.
Proof. reflexivity. Qed.

Lemma bind_Ok {A B} (m : M A) (f : A -> M B) (w w' : World) (b : B) :
  (m ≫= f) w = (Ok b, w') ->
  exists a w1, m w = (Ok a, w1) /\ f a w1 = (Ok b, w').
Proof.
  rewrite bind_unfold. destruct (m w) as [[a | e |] w1]; intros H.
  - now exists a, w1.
  - discriminate.
  - discriminate.
Qed.

Lemma load_lookup (w : World) (r : ref) (o : InternalFileTree) :
  heap w !! r = Some o -> load r w = (Ok o, w).
Proof. intros H. unfold load, read, deref. now rewrite H. Qed.

Lemma mapM_Ok_Forall2 {A B} (f : A -> Outcome B) (xs : list A) (ys : list B) :
  mapM f xs = Ok ys -> Forall2 (fun x y => f x = Ok y) xs ys.
Proof.
  revert ys. induction xs as [| x xs IH]; simpl; intros ys H.
  - injection H as <-. constructor.
  - destruct (f x) as [y | e |] eqn:Hy; simpl in H; try discriminate.
    destruct (mapM f xs) as [ys' | e |]; simpl in H; try discriminate.
    injection H as <-. constructor; [exact Hy | now apply IH].
Qed.

(** ** The diff *)

(** Whatever the trees, the set [diff] calls [new_files] is the set it
    calls [removed_files]. *)
Lemma diff_new_files_eq_removed_files (h : list InternalFileTree) (a b : ref) :
  InternalFileTree.diff_new_files h a b = InternalFileTree.diff_removed_files h a b.
Proof. reflexivity. Qed.

(** Two references match in a set only when they are the same object. *)
Lemma set_match_same_object (h : list InternalFileTree) (x y : ref) :
  InternalFileTree.set_match h x y = true -> x = y.
Proof.
  unfold InternalFileTree.set_match, InternalFileTree.__eq__.
  intros H. apply andb_true_iff in H as [_ H].
  apply orb_true_iff in H as [H | H]; now apply Nat.eqb_eq in H.
Qed.

Lemma str_set_add_keeps (s : list string) (x y : string) :
  str_set_contains s y = true -> str_set_contains (str_set_add s x) y = true.
Proof.
  unfold str_set_add. destruct (str_set_contains s x); [auto |].
  intros H. unfold str_set_contains in *. rewrite existsb_app, H. reflexivity.
Qed.

Lemma str_set_add_contains (s : list string) (x : string) :
  str_set_contains (str_set_add s x) x = true.
Proof.
  unfold str_set_add. destruct (str_set_contains s x) eqn:H; [exact H |].
  unfold str_set_contains. rewrite existsb_app. simpl.
  rewrite String.eqb_refl. now rewrite orb_true_r.
Qed.

Lemma str_set_of_list_contains (xs : list string) (x : string) :
  In x xs -> str_set_contains (str_set_of_list xs) x = true.
Proof.
  unfold str_set_of_list.
  assert (H : forall acc, (str_set_contains acc x = true \/ In x xs) ->
                          str_set_contains (fold_left str_set_add xs acc) x = true).
  { induction xs as [| y xs IH]; intros acc Hor; simpl.
    - destruct Hor as [Hacc | []]. exact Hacc.
    - destruct Hor as [Hacc | [-> | Hin]]; apply IH.
      + left. now apply str_set_add_keeps.
      + left. apply str_set_add_contains.
      + now right. }
  intros Hx. apply H. now right.
Qed.

Lemma str_set_intersection_self (s : list string) (x : string) :
  str_set_contains s x = true ->
  str_set_contains (str_set_intersection s s) x = true.
Proof.
  unfold str_set_intersection, str_set_contains. intros H.
  apply existsb_exists in H as (y & Hy & Hxy).
  apply existsb_exists. exists y. split; [| exact Hxy].
  apply filter_In. split; [exact Hy |].
  apply existsb_exists. exists y. split; [exact Hy | apply String.eqb_refl].
Qed.

(** The first loop of [diff] over files whose paths are all changed
    paths, and the second loop over the same files. *)
(** *** The order of a set *)

Lemma set_iter_empty {A} (order : list nat) : set_iter order ([] : list A) = [].
Proof. destruct order; reflexivity. Qed.

Lemma set_iter_Permutation {A} (order : list nat) :
  forall s : list A, set_iter order s ≡ₚ s.
Proof.
  induction order as [| k order IH]; intros s; [reflexivity |].
  cbn [set_iter]. cbv zeta.
  destruct (s !! (k mod length s)%nat) as [x |] eqn:E; [| reflexivity].
  rewrite IH. symmetry. now apply delete_Permutation.
Qed.

Lemma set_iter_length {A} (order : list nat) (s : list A) :
  length (set_iter order s) = length s.
Proof. now rewrite set_iter_Permutation. Qed.

Lemma set_iter_Forall2 {A B} (R : A -> B -> Prop) (order : list nat) :
  forall (l : list A) (k : list B),
    Forall2 R l k -> Forall2 R (set_iter order l) (set_iter order k).
Proof.
  induction order as [| c order IH]; intros l k H; [exact H |].
  cbn [set_iter]. cbv zeta. pose proof (Forall2_length _ _ _ H) as Hlen.
  rewrite <- Hlen.
  destruct (l !! (c mod length l)%nat) as [x |] eqn:E.
  - destruct (Forall2_lookup_l _ _ _ _ _ H E) as (y & Ey & Hxy). rewrite Ey.
    constructor; [exact Hxy |]. now apply IH, Forall2_delete.
  - apply lookup_ge_None in E. rewrite Hlen in E.
    apply lookup_ge_None in E. rewrite Hlen at 1. now rewrite E.
Qed.

(** *** The two loops of [diff] *)

Lemma changed_records (ps : list string) :
  forallb is_changed_log (map (fun p => Log DEBUG (FileChanged p)) ps) = true.
Proof. induction ps as [| p ps IH]; [reflexivity | exact IH]. Qed.

(** Over files whose paths are all in the set of changed paths, the first
    loop logs one "changed" record per file, in the order of the loop, and
    the second loop does nothing. *)
Lemma diff_loops (changed : list string) (h : list InternalFileTree)
    (files : list ref) :
  forall (paths : list string) (w : World),
    heap w = h ->
    Forall2 (fun f p => (o ← deref h f; Ok (full_path o)) = Ok p) files paths ->
    Forall (fun p => str_set_contains changed p = true) paths ->
    for_each files (fun file =>
      o ← load file;
      if str_set_contains changed (full_path o)
      then log_debug (FileChanged (full_path o))
      else log_debug (FileRemoved (full_path o))) w
    = (Ok tt, mkWorld (heap w) (self w) (listings w) (probes w)
                (trace w ++ map (fun p => Log DEBUG (FileChanged p)) paths)) /\
    for_each files (fun file =>
      o ← load file;
      if negb (str_set_contains changed (full_path o))
      then log_debug (FileCreated (full_path o))
      else mret tt) w
    = (Ok tt, w).
Proof.
  induction files as [| f files IH]; intros paths w Hh Hpaths Hin.
  - inversion Hpaths; subst. split; [| reflexivity].
    simpl. rewrite app_nil_r. now destruct w.
  - inversion Hpaths as [| ? p ? paths' Hf Hrest]; subst.
    inversion Hin as [| ? ? Hc Hin']; subst.
    unfold deref in Hf. destruct (heap w !! f) as [o |] eqn:Ho; simpl in Hf;
      [| discriminate].
    injection Hf as <-.
    set (w1 := mkWorld (heap w) (self w) (listings w) (probes w)
                 (trace w ++ [Log DEBUG (FileChanged (full_path o))])).
    destruct (IH paths' w1 eq_refl Hrest Hin') as [Hfirst _].
    destruct (IH paths' w eq_refl Hrest Hin') as [_ Hsecond].
    split.
    + cbn [for_each]. rewrite !bind_unfold, (load_lookup w f o Ho), Hc.
      change (log_debug (FileChanged (full_path o)) w) with (Ok tt, w1).
      cbv beta iota. rewrite Hfirst. subst w1. cbn [heap self listings probes trace map].
      now rewrite <- app_assoc.
    + cbn [for_each]. rewrite !bind_unfold, (load_lookup w f o Ho), Hc.
      cbn [negb]. exact Hsecond.
Qed.

(** What a call of [diff] does, given the set it computes (twice) and the
    full paths of its elements: one "changed" record per element, in the
    order in which the first loop visits the set. *)
Lemma diff_logs_changes (order_removed order_new : list nat) (w : World)
    (a b : ref) (files : list ref) (paths : list string) :
  InternalFileTree.diff_removed_files (heap w) a b = Ok files ->
  mapM (fun f => o ← deref (heap w) f; Ok (full_path o)) files = Ok paths ->
  InternalFileTree.diff order_removed order_new a b w
  = (Ok tt, mkWorld (heap w) (self w) (listings w) (probes w)
              (trace w ++ map (fun p => Log DEBUG (FileChanged p))
                            (set_iter order_removed paths))).
Proof.
  intros Hfiles Hmap.
  unfold InternalFileTree.diff, read.
  unfold mbind at 1 2 3 4 5, M_mbind at 1 2 3 4 5, M_bind at 1 2 3 4 5. cbv beta.
  change (InternalFileTree.diff_new_files (heap w) a b)
    with (InternalFileTree.diff_removed_files (heap w) a b).
  rewrite Hfiles. unfold InternalFileTree.full_paths. rewrite Hmap.
  cbn [mbind Outcome_mbind Outcome_bind].
  apply mapM_Ok_Forall2 in Hmap.
  set (changed := str_set_intersection (str_set_of_list paths) (str_set_of_list paths)).
  assert (Hin : Forall (fun p => str_set_contains changed p = true) paths).
  { apply List.Forall_forall. intros p Hp.
    now apply str_set_intersection_self, str_set_of_list_contains. }
  assert (Hin' : forall order,
             Forall (fun p => str_set_contains changed p = true) (set_iter order paths)).
  { intros order. now rewrite set_iter_Permutation. }
  destruct (diff_loops changed (heap w) _ _ w eq_refl
              (set_iter_Forall2 _ order_removed _ _ Hmap) (Hin' order_removed))
    as [Hfirst _].
  rewrite Hfirst. cbv beta iota.
  set (w1 := mkWorld _ _ _ _ _).
  destruct (diff_loops changed (heap w) _ _ w1 eq_refl
              (set_iter_Forall2 _ order_new _ _ Hmap) (Hin' order_new))
    as [_ Hsecond].
  exact Hsecond.
Qed.

(** C1. Tree [a] lists x and y, tree [b] lists y and z. The source
    computes [new_files] with the same expression as [removed_files]
    (receiver and argument not swapped), and the elements of the sets are
    compared as objects: both sets hold the nodes x and y of [a], node z of
    [b] is in neither, and the two log records, in the order in which the
    first loop visits the set, say that /x and /y changed. *)
Theorem diff_new_files_repeats_removed_files :
  let '(r, w) := build_two ["x 1"; "y 2"] ["y 2"; "z 3"] in
  let h := heap w in
  r = Ok (0, 3)%nat /\
  descendants_set <$> h !! 0%nat = Some [1; 2]%nat /\
  descendants_set <$> h !! 3%nat = Some [4; 5]%nat /\
  full_path <$> h !! 1%nat = Some "/x" /\
  full_path <$> h !! 2%nat = Some "/y" /\
  full_path <$> h !! 4%nat = Some "/y" /\
  full_path <$> h !! 5%nat = Some "/z" /\
  InternalFileTree.diff_removed_files h 0%nat 3%nat = Ok [1; 2]%nat /\
  InternalFileTree.diff_new_files h 0%nat 3%nat = Ok [1; 2]%nat /\
  forall order_removed order_new : list nat,
    InternalFileTree.diff order_removed order_new 0%nat 3%nat w
    = (Ok tt, mkWorld (heap w) (self w) (listings w) (probes w)
                (trace w ++ map (fun p => Log DEBUG (FileChanged p))
                              (set_iter order_removed ["/x"; "/y"]))).
Proof.
  destruct (build_two ["x 1"; "y 2"] ["y 2"; "z 3"]) as [r w] eqn:Hb.
  vm_compute in Hb. injection Hb as <- <-.
  do 9 (split; [vm_compute; reflexivity |]).
  intros order_removed order_new.
  apply (diff_logs_changes _ _ _ _ _ [1; 2]%nat); vm_compute; reflexivity.
Qed.

(** C2. Two trees built from the same one-line listing: the two file
    nodes have the same fingerprint (and the same full path), yet the node
    of the first tree stays in the difference of the descendants sets. The
    class defines [__hash__] and no [__eq__], so the sets compare objects. *)
Theorem diff_keeps_node_with_equal_fingerprint :
  let '(r, w) := build_two ["x 5"] ["x 5"] in
  let h := heap w in
  r = Ok (0, 2)%nat /\
  descendants_set <$> h !! 0%nat = Some [1%nat] /\
  descendants_set <$> h !! 2%nat = Some [3%nat] /\
  InternalFileTree.__hash__ <$> h !! 1%nat = Some (FILE, None, Some 5, None, None) /\
  InternalFileTree.__hash__ <$> h !! 3%nat = Some (FILE, None, Some 5, None, None) /\
  full_path <$> h !! 1%nat = full_path <$> h !! 3%nat /\
  InternalFileTree.set_contains h [3%nat] 1%nat = false /\
  InternalFileTree.diff_removed_files h 0%nat 2%nat = Ok [1%nat].
Proof. vm_compute. repeat split; reflexivity. Qed.

(** ** The update cycle *)

(** C3. A cycle that starts in [UNSURE] with an empty listing and whose
    probe reports the card present: the first [if] of [_update] runs the
    probe and moves to [PRESENT]; the second [if], not an [elif], then sees
    an empty tree in state [PRESENT] and runs the probe again. Two probe
    requests and three waits, whatever the second reply is. *)
Theorem update_probes_twice_from_unsure (text : string) (second : Matchable) :
  let w := snd (SDCard._update
                  (SDCard.boot [mkCollected []] [card_present text; second])) in
  probe_requests (trace w) = 2%nat /\ waits (trace w) = 3%nat.
Proof.
  destruct second as [[|] [[g|]|]]; vm_compute; split; reflexivity.
Qed.

(** C4. The cycle that takes the machine from [INITIALISING] to [PRESENT]
    has built a tree with the file x.gco, but [sd_state_changed] converts
    [self.file_tree], which [_update] assigns only afterwards: the payload
    of the inserted signal is the empty tree of the cycle before. *)
Theorem inserted_signal_carries_previous_tree :
  let '(r, w) := absent_then_inserted in
  let x_gco := mkFileTree "FILE" "x.gco" None (Some 12) None None None in
  let new_tree := mkFileTree "MOUNT" "SD Card" (Some true) None None None (Some [x_gco]) in
  r = Ok tt /\
  sd_state (self w) = PRESENT /\
  inserted_events (trace w) = [inserted_signal "/" empty_mount] /\
  last (trace w) = Some (updated_signal new_tree PRESENT) /\
  (exists t, file_tree (self w) = Some t /\
             InternalFileTree.to_api_file_tree t w = (Ok new_tree, w)) /\
  empty_mount <> new_tree.
Proof.
  vm_compute. repeat split; try reflexivity.
  - exists 1%nat. split; reflexivity.
  - discriminate.
Qed.

Lemma extends_refl (w : World) : extends w w.
Proof.
  split; auto. exists []. split; [now rewrite app_nil_r | reflexivity].
Qed.

Lemma extends_trans (w1 w2 w3 : World) :
  extends w1 w2 -> extends w2 w3 -> extends w1 w3.
Proof.
  intros [Hs1 Hp1 [e1 [Ht1 Hq1]] Hn1] [Hs2 Hp2 [e2 [Ht2 Hq2]] Hn2].
  split.
  - congruence.
  - congruence.
  - exists (e1 ++ e2). split.
    + rewrite Ht2, Ht1. now rewrite app_assoc.
    + rewrite forallb_app, Hq1, Hq2. reflexivity.
  - auto.
Qed.

Section Preserves.

Context {A B : Type}.

Lemma preserves_bind (m : M A) (f : A -> M B) :
  preserves m -> (forall a, preserves (f a)) -> preserves (m ≫= f).
Proof.
  intros Hm Hf w. rewrite bind_unfold.
  specialize (Hm w). destruct (m w) as [[a | e |] w1]; simpl in *; auto.
  eapply extends_trans; [exact Hm | apply Hf].
Qed.

Lemma preserves_ret (a : A) : preserves (mret a : M A).
Proof. intros w. apply extends_refl. Qed.

Lemma preserves_raise (e : Exn) : preserves (raise e : M A).
Proof. intros w. apply extends_refl. Qed.

Lemma preserves_stuck : preserves (stuck : M A).
Proof. intros w. apply extends_refl. Qed.

Lemma preserves_read (f : list InternalFileTree -> Outcome A) : preserves (read f).
Proof. intros w. apply extends_refl. Qed.

End Preserves.

Lemma preserves_get_heap : preserves get_heap.
Proof. intros w. apply extends_refl. Qed.

Lemma preserves_get_self : preserves get_self.
Proof. intros w. apply extends_refl. Qed.

Lemma preserves_load (r : ref) : preserves (load r).
Proof. apply preserves_read. Qed.

Lemma preserves_emit (e : Event) : is_listing_event e = true -> preserves (emit e).
Proof.
  intros He w. split; simpl; auto.
  exists [e]. split; [reflexivity | simpl; now rewrite He].
Qed.

Lemma preserves_log_debug (m : LogMsg) : preserves (log_debug m).
Proof. now apply preserves_emit. Qed.

Lemma nonempty_at_app (h : list InternalFileTree) (o : InternalFileTree) (r : ref) :
  nonempty_at h r -> nonempty_at (h ++ [o]) r.
Proof.
  intros [x [Hx Hne]]. exists x. split; [| exact Hne].
  now apply lookup_app_l_Some.
Qed.

Lemma preserves_alloc (o : InternalFileTree) : preserves (alloc o).
Proof.
  intros w. split; simpl; auto.
  - exists []. split; [now rewrite app_nil_r | reflexivity].
  - intros r. apply nonempty_at_app.
Qed.

Lemma nonempty_at_insert (h : list InternalFileTree) (r r' : ref)
    (o : InternalFileTree) (f : InternalFileTree -> InternalFileTree) :
  h !! r = Some o ->
  (descendants_set o <> [] -> descendants_set (f o) <> []) ->
  nonempty_at h r' -> nonempty_at (<[r := f o]> h) r'.
Proof.
  intros Hr Hf [x [Hx Hne]].
  destruct (decide (r = r')) as [-> | Hdiff].
  - exists (f o). split.
    + apply list_lookup_insert_eq. now apply lookup_lt_Some in Hr.
    + apply Hf. congruence.
  - exists x. split; [| exact Hne]. now rewrite list_lookup_insert_ne.
Qed.

Lemma preserves_modify (r : ref) (f : InternalFileTree -> InternalFileTree) :
  (forall o, descendants_set o <> [] -> descendants_set (f o) <> []) ->
  preserves (modify r f).
Proof.
  intros Hf w. unfold modify, load, read, deref.
  rewrite bind_unfold. destruct (heap w !! r) as [o |] eqn:Hr; simpl.
  - split; simpl; auto.
    + exists []. split; [now rewrite app_nil_r | reflexivity].
    + intros r'. apply nonempty_at_insert; auto.
  - apply extends_refl.
Qed.

Lemma set_add_nonempty (h : list InternalFileTree) (s : list ref) (x : ref) :
  InternalFileTree.set_add h s x <> [].
Proof.
  unfold InternalFileTree.set_add.
  destruct (InternalFileTree.set_contains h s x) eqn:Hc.
  - destruct s; [discriminate | discriminate].
  - destruct s; discriminate.
Qed.

Create HintDb preserves.

#[local] Hint Resolve preserves_get_heap preserves_get_self preserves_load
  preserves_log_debug preserves_alloc : preserves.

Ltac preserve_step :=
  first
    [ assumption
    | solve [ auto 1 with preserves nocore ]
    | apply preserves_ret
    | apply preserves_raise
    | apply preserves_stuck
    | apply preserves_modify; intros ? ?; simpl;
      solve [ assumption | apply set_add_nonempty ]
    | apply preserves_bind; [| intros ?] ].

Ltac preserve_case :=
  match goal with
  | |- preserves (match ?x with _ => _ end) => destruct x
  | |- preserves (if ?b then _ else _) => destruct b
  end.

Ltac preserve := repeat (first [ preserve_step | preserve_case ]).

Lemma preserves_get_full_path (r : ref) : preserves (InternalFileTree.get_full_path r).
Proof. apply preserves_read. Qed.

#[local] Hint Resolve preserves_get_full_path : preserves.

Lemma preserves_init (t : FileType) (p : string) (r : option bool)
    (s d tm : option Z) (parent : option ref) :
  preserves (InternalFileTree.__init__ t p r s d tm parent).
Proof. unfold InternalFileTree.__init__. preserve. Qed.

Lemma preserves_set_parent (r : ref) (p : option ref) :
  preserves (InternalFileTree.set_parent r p).
Proof. unfold InternalFileTree.set_parent. preserve. Qed.

#[local] Hint Resolve preserves_init preserves_set_parent : preserves.

Lemma preserves_add_child (r c : ref) : preserves (InternalFileTree.add_child r c).
Proof. unfold InternalFileTree.add_child. preserve. Qed.

#[local] Hint Resolve preserves_add_child : preserves.

Lemma preserves_child_from_path (fuel : nat) :
  forall (r : ref) (line : string),
    preserves (InternalFileTree.child_from_path fuel r line).
Proof.
  induction fuel as [| fuel IH]; intros r line; simpl.
  - apply preserves_stuck.
  - preserve.
Qed.

#[local] Hint Resolve preserves_child_from_path : preserves.

Lemma preserves_for_each {A} (xs : list A) (body : A -> M unit) :
  (forall x, preserves (body x)) -> preserves (for_each xs body).
Proof.
  intros Hbody. induction xs as [| x xs IH]; simpl.
  - apply preserves_ret.
  - apply preserves_bind; [apply Hbody | intros _; exact IH].
Qed.

Lemma preserves_next_listing : preserves SDCard.next_listing.
Proof.
  intros w. unfold SDCard.next_listing.
  destruct (listings w); [apply extends_refl |].
  split; simpl; auto.
  exists []. split; [now rewrite app_nil_r | reflexivity].
Qed.

(** Listing events hold no signal and no probe request. *)
Lemma listing_events_silent (evs : list Event) :
  forallb is_listing_event evs = true ->
  inserted_events evs = [] /\ ejected_events evs = [] /\ probe_requests evs = 0%nat.
Proof.
  unfold inserted_events, ejected_events, probe_requests.
  induction evs as [| e evs IH]; simpl; [auto |].
  intros H. apply andb_true_iff in H as [He Hevs].
  destruct (IH Hevs) as (Hi & Hej & Hp).
  destruct e as [lvl m | g | g | t st | r f | r]; simpl in *; try discriminate; auto.
  apply String.eqb_eq in He. subst g. simpl. auto.
Qed.

(** ** Construction *)

(** A node constructed without a parent is the new last object of the
    store, with full path "/"; nothing else changes. *)
Lemma init_without_parent (t : FileType) (p : string) (r : option bool)
    (s d tm : option Z) (w : World) :
  InternalFileTree.__init__ t p r s d tm None w
  = (Ok (length (heap w)),
     mkWorld (heap w ++ [mkInternalFileTree t p r s d tm [] [] None "/"])
       (self w) (listings w) (probes w) (trace w)).
Proof.
  assert (Hlook : forall (h : list InternalFileTree) o, deref (h ++ [o]) (length h) = Ok o).
  { intros h o. unfold deref. now rewrite list_lookup_middle. }
  unfold InternalFileTree.__init__, alloc, InternalFileTree.get_full_path,
    modify, load, read, get_heap, put_heap.
  unfold mbind, M_mbind, M_bind, mret, M_ret.
  destruct w as [h sd ls ps tr]. cbn -[deref insert length].
  rewrite length_app, Nat.add_1_r. cbn -[deref insert length].
  rewrite Hlook. cbn -[deref insert length].
  rewrite insert_app_r_alt by lia. rewrite Nat.sub_diag. reflexivity.
Qed.

(** When [child_from_path] returns, the descendants set of the node it
    was called on holds the node it returns. *)
Lemma child_from_path_nonempty (fuel : nat) (r added : ref) (line : string)
    (w w' : World) :
  InternalFileTree.child_from_path fuel r line w = (Ok added, w') ->
  nonempty_at (heap w') r.
Proof.
  destruct fuel as [| fuel]; [discriminate |].
  intros H. simpl in H.
  apply bind_Ok in H as (_ & w1 & _ & H).
  apply bind_Ok in H as (c & w2 & _ & H).
  apply bind_Ok in H as (h & w3 & Hh & H).
  apply bind_Ok in H as (u & w4 & Hm & H).
  unfold modify, load, read, deref in Hm. rewrite bind_unfold in Hm.
  destruct (heap w3 !! r) as [o |] eqn:Hr; [| discriminate].
  injection Hm as _ Hw4. injection H as _ Hw'. subst w' w4. simpl.
  eexists. split.
  - apply list_lookup_insert_eq. apply lookup_lt_Some in Hr.
    injection Hh as Hh _. now subst h.
  - simpl. apply set_add_nonempty.
Qed.

Lemma preserves_listing_line (tree : ref) (line : string) :
  preserves
    (InternalFileTree.child_from_path
       (S (String.length (Str.lower line))) tree (Str.lower line) ;; mret tt).
Proof. preserve. Qed.

(** Unfold the monad and the world primitives, then evaluate, keeping
    the recursive functions and the store lookups folded. *)
Ltac run_in H :=
  unfold mbind, M_mbind, M_bind, mret, M_ret, get_self, get_heap, put_heap,
    put_self, load, log_debug, log_error, emit, raise, stuck, read in H;
  cbn -[InternalFileTree.child_from_path InternalFileTree.to_api_file_tree_rec
        for_each String.length Str.lower deref lookup insert length] in H.

Ltac run :=
  unfold mbind, M_mbind, M_bind, mret, M_ret, get_self, get_heap, put_heap,
    put_self, load, log_debug, log_error, emit, raise, stuck, read;
  cbn -[InternalFileTree.child_from_path InternalFileTree.to_api_file_tree_rec
        for_each String.length Str.lower deref lookup insert length].

Lemma for_each_cons_Ok {A} (x : A) (xs : list A) (body : A -> M unit)
    (w w' : World) (u : unit) :
  for_each (x :: xs) body w = (Ok u, w') ->
  exists w1, body x w = (Ok tt, w1) /\ for_each xs body w1 = (Ok u, w').
Proof.
  simpl. intros H. apply bind_Ok in H as ([] & w1 & H1 & H2). now exists w1.
Qed.

(** A cycle not in state [ABSENT] whose listing has at least one line and
    whose tree is built without an exception has a non-empty tree. *)
Lemma construct_file_tree_nonempty (h : list InternalFileTree) (sd : SDCard)
    (line : string) (lines : list string) (ls : list Collected)
    (ps : list Matchable) (tr : list Event) (tree : ref) (w1 : World) :
  sd_state sd <> ABSENT ->
  SDCard.construct_file_tree
    (mkWorld h sd (mkCollected (line :: lines) :: ls) ps tr) = (Ok tree, w1) ->
  nonempty_at (heap w1) tree.
Proof.
  intros Hst H. unfold SDCard.construct_file_tree in H.
  rewrite bind_unfold, init_without_parent in H.
  unfold SDCard.enqueue_collecting, SDCard.wait_for_collecting,
    SDCard.next_listing in H.
  run_in H.
  destruct (SDState_eqb (sd_state sd) ABSENT) eqn:Habs.
  { destruct (sd_state sd); try discriminate. now contradiction Hst. }
  run_in H.
  destruct (for_each _ _ _) as [[u | e |] w2] eqn:Hloop; try discriminate.
  injection H as <- <-. simpl.
  apply for_each_cons_Ok in Hloop as (w3 & Hfirst & Hrest).
  destruct (InternalFileTree.child_from_path _ _ _ _) as [[added | e |] w4] eqn:Hc;
    try discriminate.
  injection Hfirst as <-.
  apply child_from_path_nonempty in Hc.
  match type of Hrest with
  | for_each _ ?body _ = _ =>
      assert (Hp : preserves (for_each lines body))
        by (apply preserves_for_each; intros x; apply preserves_listing_line)
  end.
  specialize (Hp w4). rewrite Hrest in Hp.
  now apply (ext_nonempty _ _ Hp).
Qed.

Lemma extends_build (w : World) (h : list InternalFileTree) (ls : list Collected)
    (evs : list Event) :
  (forall r, nonempty_at (heap w) r -> nonempty_at h r) ->
  forallb is_listing_event evs = true ->
  extends w (mkWorld h (self w) ls (probes w) (trace w ++ evs)).
Proof.
  intros Hn Hevs. split; simpl; auto. now exists evs.
Qed.

(** Whatever its outcome, [construct_file_tree] leaves the fields of the
    instance and the pending probe replies alone and adds only listing
    events to the trace. *)
Lemma preserves_construct_file_tree : preserves SDCard.construct_file_tree.
Proof.
  intros w. unfold SDCard.construct_file_tree.
  rewrite bind_unfold, init_without_parent.
  unfold SDCard.enqueue_collecting, SDCard.wait_for_collecting,
    SDCard.next_listing.
  run.
  destruct (SDState_eqb (sd_state (self w)) ABSENT).
  - run. rewrite <- (app_nil_r (trace w)).
    apply extends_build; [intros r; apply nonempty_at_app | reflexivity].
  - run. destruct (listings w) as [| c rest]; run.
    all: match goal with
    | |- extends _ (snd (let (_, _) := for_each ?xs ?body ?wA in _)) =>
        assert (Hp : preserves (for_each xs body))
          by (apply preserves_for_each; intros x; apply preserves_listing_line);
        specialize (Hp wA);
        assert (Hw : extends w wA)
          by (rewrite <- app_assoc;
              apply extends_build; [intros r; apply nonempty_at_app | reflexivity])
    end.
    all: destruct (for_each _ _ _) as [[u | e |] w2]; simpl in *.
    all: try (eapply extends_trans; eassumption).
    all: eapply extends_trans; [exact Hw |]; eapply extends_trans; [exact Hp |].
    all: apply extends_build; [auto | reflexivity].
Qed.

Ltac unfold_sdcard :=
  unfold SDCard.sd_inserted, SDCard.decide_presence, SDCard.sd_state_changed,
    SDCard.set_sd_state, SDCard.set_expecting_insertion, SDCard.set_file_tree,
    SDCard.enqueue_matchable, SDCard.wait_for_matchable, SDCard.next_probe,
    InternalFileTree.to_api_file_tree.

Ltac split_outcomes :=
  repeat match goal with
         | |- context [match ?x with Ok _ => _ | Raise _ => _ | Stuck => _ end] =>
             destruct x
         | |- context [let (_, _) := ?x in _] => destruct x
         end.

(** ** Well-formed stores: the model does not get stuck *)

Lemma lstrip_length (c : ascii) (s : string) :
  (String.length (Str.lstrip c s) <= String.length s)%nat.
Proof.
  induction s as [| a s IH]; simpl; [lia |].
  destruct (Ascii.eqb a c); simpl; lia.
Qed.

Lemma rstrip_length (c : ascii) (s : string) :
  (String.length (Str.rstrip c s) <= String.length s)%nat.
Proof.
  induction s as [| a s IH]; simpl; [lia |].
  destruct (Str.rstrip c s) as [| b r]; simpl in *.
  - destruct (Ascii.eqb a c); simpl; lia.
  - lia.
Qed.

Lemma partition_length (c : ascii) (s before after : string) :
  Str.partition c s = (before, Some after) ->
  (String.length after < String.length s)%nat.
Proof.
  revert before. induction s as [| a s IH]; simpl; intros before H.
  - discriminate.
  - destruct (Ascii.eqb a c).
    + injection H as _ <-. lia.
    + destruct (Str.partition c s) as [b [r |]]; [| discriminate].
      injection H as _ <-. specialize (IH b eq_refl). lia.
Qed.

(** The remainder [child_from_path] recurses on is shorter than its
    line. *)
Lemma split1_rest_shorter (line path rest : string) :
  Str.split1 "/" (Str.strip "/" line) = [path; rest] ->
  (String.length rest < String.length line)%nat.
Proof.
  unfold Str.split1, Str.strip. intros H.
  destruct (Str.partition "/" _) as [b [r |]] eqn:Hp; [| discriminate].
  injection H as _ <-. apply partition_length in Hp.
  pose proof (rstrip_length "/" (Str.lstrip "/" line)).
  pose proof (lstrip_length "/" line). lia.
Qed.

Lemma wf_node_mono (len len' : nat) (r : ref) (o : InternalFileTree) :
  (len <= len')%nat -> wf_node len r o -> wf_node len' r o.
Proof.
  intros Hle [Hc Hp]. split; [| exact Hp].
  eapply Forall_impl; [exact Hc |]. simpl. intros kc ?. lia.
Qed.

Lemma wf_heap_nil : wf_heap [].
Proof. intros r o H. discriminate. Qed.

Lemma wf_heap_alloc (h : list InternalFileTree) (o : InternalFileTree) :
  wf_heap h -> children_dict o = [] -> _parent o = None -> wf_heap (h ++ [o]).
Proof.
  intros Hwf Hc Hp r x Hr. rewrite length_app. simpl.
  destruct (decide (r < length h)%nat) as [Hlt | Hge].
  - rewrite lookup_app_l in Hr by exact Hlt.
    eapply wf_node_mono; [| apply Hwf; exact Hr]. lia.
  - rewrite lookup_app_r in Hr by lia.
    destruct (r - length h)%nat; simpl in Hr; [| discriminate].
    injection Hr as <-. split; [rewrite Hc; constructor | now rewrite Hp].
Qed.

Lemma wf_heap_insert (h : list InternalFileTree) (r : ref) (o' : InternalFileTree) :
  wf_heap h -> wf_node (length h) r o' -> wf_heap (<[r := o']> h).
Proof.
  intros Hwf Hn r' x Hr'. rewrite length_insert.
  destruct (decide (r = r')) as [<- | Hne].
  - destruct (decide (r < length h)%nat) as [Hlt | Hge].
    + rewrite list_lookup_insert_eq in Hr' by exact Hlt. now injection Hr' as <-.
    + rewrite list_insert_ge in Hr' by lia. now apply Hwf.
  - rewrite list_lookup_insert_ne in Hr' by exact Hne. now apply Hwf.
Qed.

Lemma lookup_valid (h : list InternalFileTree) (r : ref) :
  (r < length h)%nat -> exists o, h !! r = Some o.
Proof. intros H. now apply lookup_lt_is_Some_2. Qed.

(** On a well-formed store the loop of [get_full_path] ends before its
    fuel does: every step moves to a smaller reference. *)
Lemma get_full_path_loop_total (h : list InternalFileTree) (fuel : nat) :
  wf_heap h ->
  forall (r : ref) (segments : list string),
    (r < length h)%nat -> (r < fuel)%nat ->
    exists result, InternalFileTree.get_full_path_loop fuel h r segments = Ok result.
Proof.
  intros Hwf. induction fuel as [| fuel IH]; intros r segments Hr Hf; [lia |].
  simpl. destruct (lookup_valid h r Hr) as [o Ho].
  unfold deref. rewrite Ho. simpl.
  destruct (Hwf r o Ho) as [_ Hp].
  destruct (_parent o) as [p |]; [| now eexists].
  apply IH; lia.
Qed.

Lemma get_full_path_total (w : World) (r : ref) :
  wf_heap (heap w) -> (r < length (heap w))%nat ->
  exists s, InternalFileTree.get_full_path r w = (Ok s, w).
Proof.
  intros Hwf Hr. unfold InternalFileTree.get_full_path, read.
  destruct (get_full_path_loop_total (heap w) (S (length (heap w))) Hwf r [] Hr)
    as [segs Hs]; [lia |].
  rewrite Hs. now eexists.
Qed.

Lemma mapM_total {A B} (f : A -> Outcome B) (xs : list A) :
  Forall (fun x => exists y, f x = Ok y) xs -> exists ys, mapM f xs = Ok ys.
Proof.
  induction 1 as [| x xs [y Hy] _ [ys Hys]]; simpl.
  - now eexists.
  - rewrite Hy. simpl. rewrite Hys. simpl. now eexists.
Qed.

(** On a well-formed store [to_api_file_tree] ends before its fuel
    does: every call moves to a larger reference. *)
Lemma to_api_file_tree_rec_total (h : list InternalFileTree) (fuel : nat) :
  wf_heap h ->
  forall r : ref,
    (r < length h)%nat -> (length h <= fuel + r)%nat ->
    exists t, InternalFileTree.to_api_file_tree_rec fuel h r = Ok t.
Proof.
  intros Hwf. induction fuel as [| fuel IH]; intros r Hr Hf; [lia |].
  simpl. destruct (lookup_valid h r Hr) as [o Ho].
  unfold deref. rewrite Ho. simpl.
  destruct (Hwf r o Ho) as [Hc _].
  destruct (mapM_total (InternalFileTree.to_api_file_tree_rec fuel h)
              (dict_values (children_dict o))) as [ts Hts].
  { unfold dict_values. apply Forall_fmap.
    eapply Forall_impl; [exact Hc |]. simpl. intros kc Hkc. apply IH; lia. }
  rewrite Hts. simpl. now eexists.
Qed.

Lemma to_api_file_tree_total (w : World) (r : ref) :
  wf_heap (heap w) -> (r < length (heap w))%nat ->
  exists t, InternalFileTree.to_api_file_tree r w = (Ok t, w).
Proof.
  intros Hwf Hr. unfold InternalFileTree.to_api_file_tree, read.
  destruct (to_api_file_tree_rec_total (heap w) (S (length (heap w))) Hwf r Hr)
    as [t Ht]; [lia |].
  rewrite Ht. now eexists.
Qed.

(** *** Steps that do not get stuck *)

Lemma returns_bind {A B} (m : M A) (f : A -> M B) (w : World)
    (Q1 : A -> World -> Prop) (Q : B -> World -> Prop) :
  returns (m w) Q1 ->
  (forall a w1, Q1 a w1 -> returns (f a w1) Q) ->
  returns ((m ≫= f) w) Q.
Proof.
  intros Hm Hf. rewrite bind_unfold.
  destruct (m w) as [[a | e |] w1]; simpl in *; auto.
Qed.

Lemma returns_weaken {A} (r : Outcome A * World) (Q Q' : A -> World -> Prop) :
  returns r Q -> (forall a w, Q a w -> Q' a w) -> returns r Q'.
Proof. destruct r as [[a | e |] w]; simpl; auto. Qed.

Lemma returns_ret {A} (a : A) (w : World) (Q : A -> World -> Prop) :
  Q a w -> returns ((mret a : M A) w) Q.
Proof. auto. Qed.

Lemma returns_raise {A} (e : Exn) (w : World) (Q : A -> World -> Prop) :
  returns ((raise e : M A) w) Q.
Proof. exact I. Qed.

Lemma returns_load (r : ref) (w : World) :
  (r < length (heap w))%nat ->
  returns (load r w) (fun o w' => w' = w /\ heap w !! r = Some o).
Proof.
  intros Hr. destruct (lookup_valid _ _ Hr) as [o Ho].
  rewrite (load_lookup w r o Ho). simpl. auto.
Qed.

Lemma returns_log_debug (m : LogMsg) (w : World) :
  returns (log_debug m w) (fun _ w' => heap w' = heap w).
Proof. reflexivity. Qed.

Lemma returns_get_full_path (r : ref) (w : World) :
  wf_heap (heap w) -> (r < length (heap w))%nat ->
  returns (InternalFileTree.get_full_path r w) (fun _ w' => w' = w).
Proof.
  intros Hwf Hr. destruct (get_full_path_total w r Hwf Hr) as [s Hs].
  rewrite Hs. reflexivity.
Qed.

Lemma returns_modify (r : ref) (f : InternalFileTree -> InternalFileTree) (w : World) :
  wf_heap (heap w) -> (r < length (heap w))%nat ->
  (forall o, wf_node (length (heap w)) r o -> wf_node (length (heap w)) r (f o)) ->
  returns (modify r f w)
    (fun _ w' => wf_heap (heap w') /\ length (heap w') = length (heap w)).
Proof.
  intros Hwf Hr Hf. destruct (lookup_valid _ _ Hr) as [o Ho].
  unfold modify. rewrite bind_unfold, (load_lookup w r o Ho). simpl.
  split; [| apply length_insert].
  apply wf_heap_insert; [exact Hwf |]. apply Hf. now apply Hwf.
Qed.

Lemma returns_init (t : FileType) (p : string) (rd : option bool)
    (s d tm : option Z) (w : World) :
  wf_heap (heap w) ->
  returns (InternalFileTree.__init__ t p rd s d tm None w)
    (fun c w' => c = length (heap w) /\ wf_heap (heap w')
                 /\ length (heap w') = S (length (heap w))).
Proof.
  intros Hwf. rewrite init_without_parent. simpl.
  split; [reflexivity |]. split.
  - now apply wf_heap_alloc.
  - rewrite length_app. simpl. lia.
Qed.

Lemma returns_set_parent (child p : ref) (w : World) :
  wf_heap (heap w) -> (child < length (heap w))%nat -> (p < child)%nat ->
  returns (InternalFileTree.set_parent child (Some p) w)
    (fun _ w' => wf_heap (heap w') /\ length (heap w') = length (heap w)).
Proof.
  intros Hwf Hc Hp. unfold InternalFileTree.set_parent.
  eapply returns_bind.
  { apply returns_modify; [exact Hwf | exact Hc |].
    intros o [Hch _]. split; [exact Hch | exact Hp]. }
  intros _ w1 [Hwf1 Hl1].
  eapply returns_bind.
  { apply returns_get_full_path; [exact Hwf1 | lia]. }
  intros fp w2 ->.
  eapply returns_weaken.
  { apply returns_modify; [exact Hwf1 | lia |]. intros o Ho. exact Ho. }
  simpl. intros _ w3 [Hwf3 Hl3]. split; [exact Hwf3 | lia].
Qed.

Lemma Forall_dict_set {V} (P : string * V -> Prop) (k : string) (v : V)
    (d : list (string * V)) :
  Forall P d -> P (k, v) -> Forall P (dict_set k v d).
Proof.
  intros Hd Hkv. induction Hd as [| [k' v'] d Hk' Hd IH]; simpl.
  - constructor; [exact Hkv | constructor].
  - destruct (String.eqb k' k); constructor; auto.
Qed.

Lemma dict_get_Forall {V} (P : V -> Prop) (k : string) (v : V)
    (d : list (string * V)) :
  Forall (fun kv => P (snd kv)) d -> dict_get k d = Some v -> P v.
Proof.
  induction 1 as [| [k' v'] d Hk' Hd IH]; simpl; [discriminate |].
  destruct (String.eqb k' k); [| exact IH].
  intros H. now injection H as <-.
Qed.

Lemma returns_add_child (self_ child : ref) (w : World) :
  wf_heap (heap w) -> (self_ < child)%nat -> (child < length (heap w))%nat ->
  returns (InternalFileTree.add_child self_ child w)
    (fun r w' => r = child /\ wf_heap (heap w')
                 /\ length (heap w') = length (heap w)).
Proof.
  intros Hwf Hsc Hc. unfold InternalFileTree.add_child.
  eapply returns_bind; [apply returns_load; exact Hc |].
  intros c w1 [-> Hlook].
  eapply returns_bind.
  { apply returns_modify; [exact Hwf | lia |].
    intros o [Hch Hp]. split; [| exact Hp].
    simpl. apply Forall_dict_set; [exact Hch | simpl; lia]. }
  intros _ w1 [Hwf1 Hl1].
  eapply returns_bind; [apply returns_load; lia |].
  intros c1 w2 [-> Hlook1].
  eapply returns_bind with
    (Q1 := fun _ w' => wf_heap (heap w') /\ length (heap w') = length (heap w)).
  { destruct (_parent c1).
    - apply returns_ret. split; [exact Hwf1 | exact Hl1].
    - eapply returns_weaken.
      + apply returns_set_parent; [exact Hwf1 | lia | exact Hsc].
      + simpl. intros _ w3 [Hwf3 Hl3]. split; [exact Hwf3 | lia]. }
  intros _ w3 [Hwf3 Hl3].
  split; [reflexivity |]. simpl. auto.
Qed.

(** [child_from_path] with more fuel than its line is long does not get
    stuck on a well-formed store, and leaves a well-formed store that has
    grown. *)
Lemma returns_child_from_path (fuel : nat) :
  forall (self_ : ref) (line : string) (w : World),
    wf_heap (heap w) -> (self_ < length (heap w))%nat ->
    (String.length line < fuel)%nat ->
    returns (InternalFileTree.child_from_path fuel self_ line w)
      (fun _ w' => wf_heap (heap w') /\ (length (heap w) <= length (heap w'))%nat).
Proof.
  induction fuel as [| fuel IH]; intros self_ line w Hwf Hs Hfuel; [lia |].
  cbn [InternalFileTree.child_from_path].
  eapply returns_bind; [apply returns_log_debug |].
  intros u1 w1 Hh1. cbv beta in Hh1.
  eapply returns_bind with
    (Q1 := fun _ w' => wf_heap (heap w') /\ (length (heap w) <= length (heap w'))%nat).
  2: { intros added w2 [Hwf2 Hl2].
       eapply returns_bind with (Q1 := fun _ w' => w' = w2); [reflexivity |].
       intros h w3 ->.
       eapply returns_bind.
       { apply returns_modify; [exact Hwf2 | lia |].
         intros o [Hch Hp]. split; [exact Hch | exact Hp]. }
       intros _ w4 [Hwf4 Hl4]. apply returns_ret. split; [exact Hwf4 | lia]. }
  assert (Hfile :
    returns
      (match Str.split " " (hd EmptyString (Str.split1 "/" (Str.strip "/" line))) with
       | [path; str_size] =>
           match Str.int str_size with
           | Some size =>
               child ← InternalFileTree.__init__ FILE path None (Some size) None None None;
               (if true_div_overflows size 1000
                then raise OverflowError
                else log_debug (AddedFile path size)) ;;
               InternalFileTree.add_child self_ child
           | None => raise ValueError
           end
       | _ => raise ValueError
       end w1)
      (fun _ w' => wf_heap (heap w') /\ (length (heap w) <= length (heap w'))%nat)).
  { destruct (Str.split " " _) as [| path [| str_size [|]]]; try exact I.
    destruct (Str.int str_size) as [size |]; [| exact I].
    eapply returns_bind; [apply returns_init; now rewrite Hh1 |].
    intros child w2 (-> & Hwf2 & Hl2).
    eapply returns_bind with (Q1 := fun _ w' => heap w' = heap w2).
    { destruct (true_div_overflows size 1000);
        [apply returns_raise | apply returns_log_debug]. }
    intros u3 w3 Hh3. cbv beta in Hh3.
    eapply returns_weaken.
    - apply returns_add_child; rewrite ?Hh3; [exact Hwf2 | | ]; rewrite ?Hl2, Hh1; lia.
    - simpl. intros _ w4 (_ & Hwf4 & Hl4). split; [exact Hwf4 |].
      rewrite Hl4, Hh3, Hl2, Hh1. lia. }
  destruct (Str.split1 "/" (Str.strip "/" line)) as [| path [| rest [|]]] eqn:Hsplit;
    try exact Hfile.
  clear Hfile.
  eapply returns_bind; [apply returns_load; now rewrite Hh1 |].
  intros s w2 [-> Hlook].
  eapply returns_bind with
    (Q1 := fun _ w' => wf_heap (heap w') /\ (length (heap w) <= length (heap w'))%nat).
  { destruct (negb (dict_contains path (children_dict s))).
    - eapply returns_bind; [apply returns_init; now rewrite Hh1 |].
      intros child w2 (-> & Hwf2 & Hl2).
      eapply returns_bind.
      { apply returns_add_child; [exact Hwf2 | |]; rewrite ?Hl2, Hh1; lia. }
      intros _ w3 (_ & Hwf3 & Hl3). apply returns_ret.
      split; [exact Hwf3 |]. rewrite Hl3, Hl2, Hh1. lia.
    - apply returns_ret. rewrite Hh1. split; [exact Hwf | lia]. }
  intros _ w2 [Hwf2 Hl2].
  eapply returns_bind; [apply returns_log_debug |].
  intros u3 w3 Hh3. cbv beta in Hh3.
  eapply returns_bind; [apply returns_load; rewrite Hh3; lia |].
  intros s' w4 [-> Hlook'].
  destruct (dict_get path (children_dict s')) as [c |] eqn:Hget; [| exact I].
  rewrite Hh3 in Hlook'.
  destruct (Hwf2 _ _ Hlook') as [Hch _].
  apply (dict_get_Forall (fun c => (self_ < c < length (heap w2))%nat) path c) in Hch;
    [| exact Hget].
  eapply returns_weaken.
  - apply IH; rewrite ?Hh3; [exact Hwf2 | lia |].
    apply split1_rest_shorter in Hsplit. lia.
  - simpl. intros _ w5 [Hwf5 Hl5]. split; [exact Hwf5 |]. rewrite Hh3 in Hl5. lia.
Qed.

Lemma returns_listing_lines (tree : ref) (lines : list string) :
  forall w : World,
    wf_heap (heap w) -> (tree < length (heap w))%nat ->
    returns
      (for_each lines (fun line =>
         let lowered := Str.lower line in
         InternalFileTree.child_from_path (S (String.length lowered)) tree lowered ;;
         mret tt) w)
      (fun _ w' => wf_heap (heap w') /\ (length (heap w) <= length (heap w'))%nat).
Proof.
  induction lines as [| line lines IH]; intros w Hwf Ht.
  - apply returns_ret. split; [exact Hwf | lia].
  - cbn [for_each].
    eapply returns_bind with
      (Q1 := fun _ w' => wf_heap (heap w') /\ (length (heap w) <= length (heap w'))%nat).
    { eapply returns_bind; [apply returns_child_from_path; [exact Hwf | exact Ht | lia] |].
      intros added w1 H1. apply returns_ret. exact H1. }
    intros _ w1 [Hwf1 Hl1]. eapply returns_weaken.
    + apply IH; [exact Hwf1 | lia].
    + simpl. intros _ w2 [Hwf2 Hl2]. split; [exact Hwf2 | lia].
Qed.

Lemma returns_next_listing (w : World) :
  returns (SDCard.next_listing w) (fun _ w' => heap w' = heap w).
Proof. unfold SDCard.next_listing. destruct (listings w); reflexivity. Qed.

(** On a well-formed store [construct_file_tree] does not get stuck; the
    tree it returns is in the store, which is well formed and has grown. *)
Lemma returns_construct_file_tree (w : World) :
  wf_heap (heap w) ->
  returns (SDCard.construct_file_tree w)
    (fun tree w' => wf_heap (heap w') /\ (tree < length (heap w'))%nat
                    /\ (length (heap w) <= length (heap w'))%nat).
Proof.
  intros Hwf. unfold SDCard.construct_file_tree.
  eapply returns_bind; [apply returns_init; exact Hwf |].
  intros tree w1 (-> & Hwf1 & Hl1).
  eapply returns_bind with (Q1 := fun _ w' => w' = w1); [reflexivity |].
  intros s w2 ->.
  destruct (SDState_eqb (sd_state s) ABSENT).
  { apply returns_ret. split; [exact Hwf1 | lia]. }
  eapply returns_bind with (Q1 := fun _ w' => heap w' = heap w1); [reflexivity |].
  intros instruction w2 Hh2.
  eapply returns_bind with (Q1 := fun _ w' => heap w' = heap w1).
  { unfold SDCard.wait_for_collecting.
    eapply returns_bind with (Q1 := fun _ w' => heap w' = heap w2); [reflexivity |].
    intros u w3 Hh3. eapply returns_weaken; [apply returns_next_listing |].
    simpl. intros _ w4 Hh4. congruence. }
  intros reply w3 Hh3.
  eapply returns_bind.
  { apply returns_listing_lines; rewrite Hh3; [exact Hwf1 | lia]. }
  intros _ w4 [Hwf4 Hl4]. rewrite Hh3 in Hl4.
  eapply returns_bind; [apply returns_log_debug |].
  intros u w5 Hh5. cbv beta in Hh5. apply returns_ret.
  rewrite Hh5. split; [exact Hwf4 | lia].
Qed.

Lemma wf_world_boot (ls : list Collected) (ps : list Matchable) :
  wf_world (SDCard.boot ls ps).
Proof. split; [apply wf_heap_nil | exact I]. Qed.

(** The methods of [SDCard] other than [_update] neither touch the store
    nor assign [file_tree], and do not get stuck in a well-formed world. *)
Lemma returns_sd_state_changed (new_state : SDState) (w : World) :
  wf_world w ->
  returns (SDCard.sd_state_changed new_state w)
    (fun _ w' => heap w' = heap w /\ file_tree (self w') = file_tree (self w)).
Proof.
  destruct w as [h [e st ft] ls ps tr]. intros [Hwf Hft]. simpl in Hwf, Hft.
  destruct st, new_state; unfold_sdcard; run; try (split; reflexivity).
  destruct ft as [t |]; run; [| exact I].
  destruct (to_api_file_tree_rec_total h (S (length h)) Hwf t Hft) as [api Hapi];
    [lia |].
  rewrite Hapi. simpl. split; reflexivity.
Qed.

Lemma returns_sd_inserted (w : World) :
  wf_world w ->
  returns (SDCard.sd_inserted w)
    (fun _ w' => heap w' = heap w /\ file_tree (self w') = file_tree (self w)).
Proof.
  intros Hw. unfold SDCard.sd_inserted.
  eapply returns_bind with (Q1 := fun _ w' => w' = w); [reflexivity |].
  intros s w1 ->. destruct (expecting_insertion s).
  - split; reflexivity.
  - now apply returns_sd_state_changed.
Qed.

Lemma returns_decide_presence (w : World) :
  wf_world w ->
  returns (SDCard.decide_presence w)
    (fun _ w' => heap w' = heap w /\ file_tree (self w') = file_tree (self w)).
Proof.
  intros Hw. unfold SDCard.decide_presence.
  eapply returns_bind with
    (Q1 := fun _ w' => heap w' = heap w /\ file_tree (self w') = file_tree (self w));
    [split; reflexivity |].
  intros u1 w1 [Hh1 Hf1].
  eapply returns_bind with
    (Q1 := fun _ w' => heap w' = heap w /\ file_tree (self w') = file_tree (self w)).
  { unfold SDCard.enqueue_matchable.
    eapply returns_bind with
      (Q1 := fun _ w' => heap w' = heap w /\ file_tree (self w') = file_tree (self w));
      [split; assumption |].
    intros u w2 H2. apply returns_ret. exact H2. }
  intros instruction w2 [Hh2 Hf2].
  eapply returns_bind with
    (Q1 := fun _ w' => heap w' = heap w /\ file_tree (self w') = file_tree (self w)).
  { unfold SDCard.wait_for_matchable.
    eapply returns_bind with
      (Q1 := fun _ w' => heap w' = heap w /\ file_tree (self w') = file_tree (self w));
      [split; assumption |].
    intros u w3 [Hh3 Hf3]. unfold SDCard.next_probe.
    destruct (probes w3); simpl; split; assumption. }
  intros reply w3 [Hh3 Hf3].
  eapply returns_bind with
    (Q1 := fun _ w' => heap w' = heap w /\ file_tree (self w') = file_tree (self w));
    [split; assumption |].
  intros u4 w4 [Hh4 Hf4].
  assert (Hw4 : wf_world w4).
  { destruct Hw as [Hwf Hft]. split; [now rewrite Hh4 | now rewrite Hf4, Hh4]. }
  assert (Hchange : forall st,
    returns (SDCard.sd_state_changed st w4)
      (fun _ w' => heap w' = heap w /\ file_tree (self w') = file_tree (self w))).
  { intros st. eapply returns_weaken; [now apply returns_sd_state_changed |].
    simpl. intros _ w5 [Hh5 Hf5]. split; congruence. }
  destruct (negb (is_confirmed reply)); [split; assumption |].
  destruct (match_SD_PRESENT reply) as [[g |] |]; [| apply Hchange | exact I].
  eapply returns_bind with (Q1 := fun _ w' => w' = w4); [reflexivity |].
  intros s w5 ->.
  destruct (negb (SDState_eqb (sd_state s) PRESENT)); [apply Hchange |].
  split; assumption.
Qed.

Lemma returns_bool (r : ref) (w : World) :
  (r < length (heap w))%nat ->
  returns (InternalFileTree.__bool__ r w) (fun _ w' => w' = w).
Proof.
  intros Hr. unfold InternalFileTree.__bool__.
  eapply returns_bind; [now apply returns_load |].
  intros o w1 [-> _]. reflexivity.
Qed.

(** A cycle that starts in a well-formed world does not get stuck, and
    ends in a well-formed world when it returns. *)
Lemma returns_update (w : World) :
  wf_world w -> returns (SDCard._update w) (fun _ w' => wf_world w').
Proof.
  intros [Hwf Hft]. unfold SDCard._update.
  eapply returns_bind with
    (Q1 := fun tree w' =>
             wf_heap (heap w') /\ (tree < length (heap w'))%nat
             /\ (length (heap w) <= length (heap w'))%nat
             /\ self w' = self w).
  { pose proof (returns_construct_file_tree w Hwf) as Hr.
    pose proof (ext_self _ _ (preserves_construct_file_tree w)) as Hs.
    destruct (SDCard.construct_file_tree w) as [[tree | x |] w1]; simpl in *; tauto. }
  intros new_tree w1 (Hwf1 & Ht1 & Hl1 & Hs1).
  set (keeps := fun w' : World =>
                  heap w' = heap w1 /\ file_tree (self w') = file_tree (self w1)).
  assert (Hkeeps : forall w', keeps w' -> wf_world w').
  { intros w' [Hh Hf]. split; [now rewrite Hh |].
    rewrite Hf, Hh, Hs1. destruct (file_tree (self w)); [lia | exact I]. }
  assert (Hstep : forall (m : M unit) w',
             keeps w' ->
             (wf_world w' ->
              returns (m w') (fun _ w'' => heap w'' = heap w'
                                           /\ file_tree (self w'') = file_tree (self w'))) ->
             returns (m w') (fun _ w'' => keeps w'')).
  { intros m w' Hk Hm. eapply returns_weaken; [exact (Hm (Hkeeps _ Hk)) |].
    simpl. intros _ w'' [Hh Hf]. destruct Hk as [Hh' Hf']. split; congruence. }
  assert (Hk1 : keeps w1) by (split; reflexivity).
  eapply returns_bind with (Q1 := fun _ w' => w' = w1); [reflexivity |].
  intros s w2 ->.
  eapply returns_bind with (Q1 := fun _ w' => keeps w').
  { destruct (existsb _ _); [| exact Hk1].
    eapply returns_bind; [now apply returns_bool |].
    intros nonempty w2 ->. destruct nonempty; apply Hstep; auto.
    - intros Hw. now apply returns_sd_state_changed.
    - apply returns_decide_presence. }
  intros u2 w2 Hk2.
  eapply returns_bind; [apply returns_bool; destruct Hk2 as [-> _]; exact Ht1 |].
  intros nonempty w3 ->.
  eapply returns_bind with (Q1 := fun _ w' => w' = w2); [reflexivity |].
  intros s2 w3 ->.
  eapply returns_bind with (Q1 := fun _ w' => keeps w').
  { destruct (_ && _); [| exact Hk2].
    apply Hstep; [exact Hk2 | apply returns_decide_presence]. }
  intros u3 w3 Hk3.
  eapply returns_bind; [apply returns_bool; destruct Hk3 as [-> _]; exact Ht1 |].
  intros nonempty3 w4 ->.
  eapply returns_bind with (Q1 := fun _ w' => w' = w3); [reflexivity |].
  intros s3 w4 ->.
  eapply returns_bind with (Q1 := fun _ w' => keeps w').
  { destruct (_ && _); [| exact Hk3]. destruct Hk3. split; assumption. }
  intros u4 w4 [Hh4 Hf4].
  eapply returns_bind with
    (Q1 := fun _ w' => heap w' = heap w1 /\ file_tree (self w') = Some new_tree).
  { split; [exact Hh4 | reflexivity]. }
  intros u5 w5 [Hh5 Hf5].
  eapply returns_bind with (Q1 := fun s w' => w' = w5 /\ s = self w5);
    [split; reflexivity |].
  intros s5 w6 [-> ->]. rewrite Hf5.
  eapply returns_bind with (Q1 := fun _ w' => w' = w5).
  { destruct (to_api_file_tree_total w5 new_tree) as [api Hapi];
      [now rewrite Hh5 | now rewrite Hh5 |].
    rewrite Hapi. reflexivity. }
  intros api w6 ->.
  eapply returns_bind with (Q1 := fun _ w' => w' = w5); [reflexivity |].
  intros s6 w6 ->. simpl.
  split; simpl; [now rewrite Hh5 | rewrite Hf5, Hh5; exact Ht1].
Qed.

(** However cycles and notifications follow each other after the
    construction of the instance, the run does not get stuck: it ends in an
    exception of the source or it returns. *)
Lemma run_never_stuck (stimuli : list Stimulus) :
  forall w, wf_world w -> returns (for_each stimuli react w) (fun _ w' => wf_world w').
Proof.
  induction stimuli as [| s stimuli IH]; intros w Hw; [exact Hw |].
  cbn [for_each]. eapply returns_bind with (Q1 := fun _ w' => wf_world w').
  - destruct s; simpl.
    + now apply returns_update.
    + eapply returns_weaken; [now apply returns_sd_inserted |].
      simpl. intros _ w' [Hh Hf]. destruct Hw as [Hwf Hft].
      split; [now rewrite Hh | now rewrite Hf, Hh].
  - intros _ w1 Hw1. now apply IH.
Qed.

Corollary run_from_boot_never_stuck (ls : list Collected) (ps : list Matchable)
    (stimuli : list Stimulus) :
  fst (for_each stimuli react (SDCard.boot ls ps)) <> Stuck.
Proof.
  pose proof (run_never_stuck stimuli _ (wf_world_boot ls ps)) as H.
  destruct (for_each stimuli react (SDCard.boot ls ps)) as [[u | x |] w];
    simpl in *; [discriminate | discriminate | contradiction].
Qed.

(** ** The state machine *)

(** C6. [sd_state_changed] sends the ejected signal, with root "/", when
    the state is [PRESENT] and the new state is [ABSENT] or [INITIALISING],
    once, and in no other case; both transitions complete. An insertion
    notification that arrives in state [PRESENT] with the guard clear takes
    the machine to [INITIALISING] and sends that signal once. *)
Theorem ejected_signal_on_leaving_present :
  (forall (w : World) (new_state : SDState),
      exists evs,
        trace (snd (SDCard.sd_state_changed new_state w)) = trace w ++ evs /\
        ejected_events evs =
          if SDState_eqb (sd_state (self w)) PRESENT
             && (SDState_eqb new_state ABSENT || SDState_eqb new_state INITIALISING)
          then [ejected_signal "/"]
          else []) /\
  (forall h e ft ls ps tr,
      SDCard.sd_state_changed ABSENT (mkWorld h (mkSDCard e PRESENT ft) ls ps tr)
      = (Ok tt, mkWorld h (mkSDCard e ABSENT ft) ls ps
                  (tr ++ [Log DEBUG (SDStateChangedFromTo PRESENT ABSENT);
                          Log DEBUG SDCardRemoved;
                          ejected_signal "/"]))) /\
  (forall h e ft ls ps tr,
      SDCard.sd_state_changed INITIALISING (mkWorld h (mkSDCard e PRESENT ft) ls ps tr)
      = (Ok tt, mkWorld h (mkSDCard e INITIALISING ft) ls ps
                  (tr ++ [Log DEBUG (SDStateChangedFromTo PRESENT INITIALISING);
                          Log DEBUG SDCardRemoved;
                          ejected_signal "/"]))) /\
  (forall h ft ls ps tr,
      SDCard.sd_inserted (mkWorld h (mkSDCard false PRESENT ft) ls ps tr)
      = (Ok tt, mkWorld h (mkSDCard false INITIALISING ft) ls ps
                  (tr ++ [Log DEBUG (SDStateChangedFromTo PRESENT INITIALISING);
                          Log DEBUG SDCardRemoved;
                          ejected_signal "/"]))).
Proof.
  repeat split.
  - intros [h [e st ft] ls ps tr] new_state.
    destruct st, new_state; unfold_sdcard; run.
    all: try destruct ft as [t |]; run; split_outcomes; run.
    all: eexists; split; [rewrite <- ?app_assoc; reflexivity | reflexivity].
  - intros. unfold_sdcard. run. rewrite <- !app_assoc; reflexivity.
  - intros. unfold_sdcard. run. rewrite <- !app_assoc; reflexivity.
  - intros. unfold_sdcard. run. rewrite <- !app_assoc; reflexivity.
Qed.

(** C7. With the guard set, an insertion notification clears the guard
    and changes nothing else: no transition, nothing added to the trace.
    With the guard clear it completes and leaves the machine in
    [INITIALISING], whatever the state was, without an inserted signal. *)
Theorem sd_inserted_guard :
  (forall h st ft ls ps tr,
      SDCard.sd_inserted (mkWorld h (mkSDCard true st ft) ls ps tr)
      = (Ok tt, mkWorld h (mkSDCard false st ft) ls ps tr)) /\
  (forall h st ft ls ps tr,
      exists evs,
        SDCard.sd_inserted (mkWorld h (mkSDCard false st ft) ls ps tr)
        = (Ok tt, mkWorld h (mkSDCard false INITIALISING ft) ls ps (tr ++ evs))
        /\ inserted_events evs = []).
Proof.
  split.
  - intros. reflexivity.
  - intros. destruct st; unfold_sdcard; run.
    all: eexists; split; [rewrite <- ?app_assoc; reflexivity | reflexivity].
Qed.

(** C8. A probe whose instruction is not confirmed, or whose wait is
    abandoned: [decide_presence] returns, the state and the stored tree are
    the ones from before, the guard is clear, and the trace gains the
    request, the wait and the log record, no signal. *)
Theorem decide_presence_unconfirmed_keeps_state :
  (forall h e st ft ls m ps tr,
      SDCard.decide_presence
        (mkWorld h (mkSDCard e st ft) ls (mkMatchable false m :: ps) tr)
      = (Ok tt, mkWorld h (mkSDCard false st ft) ls ps
                  (tr ++ [Enqueued "M21"; Waited "M21";
                          Log DEBUG FailedDeterminingPresence]))) /\
  (forall h e st ft ls tr,
      SDCard.decide_presence (mkWorld h (mkSDCard e st ft) ls [] tr)
      = (Ok tt, mkWorld h (mkSDCard false st ft) ls []
                  (tr ++ [Enqueued "M21"; Waited "M21";
                          Log DEBUG FailedDeterminingPresence]))).
Proof.
  split; intros; unfold_sdcard; run; rewrite <- !app_assoc; reflexivity.
Qed.

(** C9. In state [ABSENT], [construct_file_tree] returns a new mount node
    without children and with an empty descendants set; nothing is added
    to the trace (no request, no wait) and no reply is consumed. *)
Theorem construct_file_tree_absent :
  forall h e ft ls ps tr,
    SDCard.construct_file_tree (mkWorld h (mkSDCard e ABSENT ft) ls ps tr)
    = (Ok (length h), mkWorld (h ++ [mount_node]) (mkSDCard e ABSENT ft) ls ps tr)
    /\ (h ++ [mount_node]) !! length h = Some mount_node
    /\ descendants_set mount_node = []
    /\ children_dict mount_node = []
    /\ InternalFileTree.__bool__ (length h)
         (mkWorld (h ++ [mount_node]) (mkSDCard e ABSENT ft) ls ps tr)
       = (Ok false, mkWorld (h ++ [mount_node]) (mkSDCard e ABSENT ft) ls ps tr).
Proof.
  intros. assert (Hl : (h ++ [mount_node]) !! length h = Some mount_node)
    by now apply list_lookup_middle.
  split; [| split; [| split; [| split]]]; try reflexivity.
  - unfold SDCard.construct_file_tree.
    rewrite bind_unfold, init_without_parent. reflexivity.
  - exact Hl.
  - unfold InternalFileTree.__bool__.
    rewrite bind_unfold, (load_lookup _ _ mount_node) by exact Hl. reflexivity.
Qed.

(** C10. The attribute [file_tree] is not assigned by [__init__], and
    none of [sd_state_changed], [sd_inserted], [decide_presence] and
    [construct_file_tree] assigns it: only the end of [_update] does. The
    inserted branch of [sd_state_changed] reads it: without a stored tree
    the call raises [AttributeError] after its two log records, sends no
    signal and leaves the state [INITIALISING]; so the call completes only
    with a stored tree. An insertion notification before the first cycle,
    then a first cycle with an empty listing and a probe that reports the
    card present, ends in that exception. *)
Theorem inserted_branch_needs_stored_tree :
  file_tree SDCard.__init__ = None /\
  (forall w new_state,
      file_tree (self (snd (SDCard.sd_state_changed new_state w))) = file_tree (self w)) /\
  (forall w, file_tree (self (snd (SDCard.sd_inserted w))) = file_tree (self w)) /\
  (forall w, file_tree (self (snd (SDCard.decide_presence w))) = file_tree (self w)) /\
  (forall w, file_tree (self (snd (SDCard.construct_file_tree w))) = file_tree (self w)) /\
  (forall h e ls ps tr,
      SDCard.sd_state_changed PRESENT (mkWorld h (mkSDCard e INITIALISING None) ls ps tr)
      = (Raise AttributeError,
         mkWorld h (mkSDCard e INITIALISING None) ls ps
           (tr ++ [Log DEBUG (SDStateChangedFromTo INITIALISING PRESENT);
                   Log DEBUG SDCardInserted]))) /\
  (forall h e ft ls ps tr,
      fst (SDCard.sd_state_changed PRESENT
             (mkWorld h (mkSDCard e INITIALISING ft) ls ps tr)) = Ok tt ->
      exists t, ft = Some t) /\
  (forall ls text ps,
      (SDCard.sd_inserted ;; SDCard._update)
        (SDCard.boot (mkCollected [] :: ls) (card_present text :: ps))
      = (Raise AttributeError,
         mkWorld [mount_node] (mkSDCard false INITIALISING None) ls ps
           [Log DEBUG (SDStateChangedFromTo UNSURE INITIALISING);
            Enqueued "M20"; Waited "M20"; Log DEBUG (ConstructedTree 0%nat);
            Enqueued "M21"; Waited "M21";
            Log DEBUG (SDStateChangedFromTo INITIALISING PRESENT);
            Log DEBUG SDCardInserted])).
Proof.
  split; [reflexivity |].
  split.
  { intros [h [e st ft] ls ps tr] new_state.
    destruct st, new_state; unfold_sdcard; run.
    all: try destruct ft as [t |]; run; split_outcomes; reflexivity. }
  split.
  { intros [h [[|] st ft] ls ps tr]; [reflexivity |].
    destruct st; unfold_sdcard; run; reflexivity. }
  split.
  { intros [h [e st ft] ls [| [[|] [[g |] |]] ps] tr].
    all: destruct st; unfold_sdcard; run.
    all: try destruct ft as [t |]; run; split_outcomes; reflexivity. }
  split.
  { intros w. now rewrite (ext_self _ _ (preserves_construct_file_tree w)). }
  split.
  { intros. unfold_sdcard. run. rewrite <- !app_assoc. reflexivity. }
  split.
  { intros h e [t |] ls ps tr H; [now exists t |].
    unfold_sdcard. run_in H. discriminate. }
  intros. vm_compute. reflexivity.
Qed.

(** A world whose instance is in [INITIALISING] with a stored (empty)
    tree: there the transition to [PRESENT] completes. *)
Lemma inserted_branch_needs_stored_tree_witness :
  fst (SDCard.sd_state_changed PRESENT
         (mkWorld [mount_node] (mkSDCard false INITIALISING (Some 0%nat)) [] [] []))
  = Ok tt
  /\ exists t : ref, Some 0%nat = Some t.
Proof.
  split.
  - vm_compute. reflexivity.
  - apply (proj1 (proj2 (proj2 (proj2 (proj2 (proj2 (proj2
             inserted_branch_needs_stored_tree))))))
             [mount_node] false (Some 0%nat) [] [] []).
    vm_compute. reflexivity.
Defined.

Lemma inserted_events_app (xs ys : list Event) :
  inserted_events (xs ++ ys) = inserted_events xs ++ inserted_events ys.
Proof. apply List.filter_app. Qed.

Lemma probe_requests_app (xs ys : list Event) :
  probe_requests (xs ++ ys) = (probe_requests xs + probe_requests ys)%nat.
Proof. unfold probe_requests. now rewrite List.filter_app, length_app. Qed.

(** A cycle that starts in [UNSURE], whose listing has at least one line
    and whose tree is built without an exception: the trace gains listing
    events, the record of the change to [PRESENT] and, when the conversion
    of the new tree returns, the updated signal. *)
Lemma update_from_unsure (h : list InternalFileTree) (e : bool) (ft : option ref)
    (line : string) (lines : list string) (ls : list Collected)
    (ps : list Matchable) (tr : list Event) (tree : ref) (w1 : World) :
  let w := mkWorld h (mkSDCard e UNSURE ft)
             (mkCollected (line :: lines) :: ls) ps tr in
  SDCard.construct_file_tree w = (Ok tree, w1) ->
  exists evs,
    forallb is_listing_event evs = true /\
    let after tail :=
      mkWorld (heap w1) (mkSDCard e PRESENT (Some tree)) (listings w1) (probes w1)
        (tr ++ evs ++ Log DEBUG (SDStateChangedFromTo UNSURE PRESENT) :: tail) in
    SDCard._update w
    = match InternalFileTree.to_api_file_tree_rec (S (length (heap w1))) (heap w1) tree with
      | Ok api => (Ok tt, after [updated_signal api PRESENT])
      | Raise x => (Raise x, after [])
      | Stuck => (Stuck, after [])
      end.
Proof.
  intros w Hc.
  assert (Hst : sd_state (mkSDCard e UNSURE ft) <> ABSENT) by discriminate.
  pose proof (construct_file_tree_nonempty h _ line lines ls ps tr tree w1
                Hst Hc) as (o & Ho & Hne).
  pose proof (preserves_construct_file_tree w) as Hext.
  rewrite Hc in Hext. destruct Hext as [Hself _ (evs & Htr & Hevs) _].
  destruct w1 as [h1 s1 ls1 ps1 tr1]. simpl in Hself, Htr, Ho. subst s1 tr1.
  exists evs. split; [exact Hevs |].
  assert (Hd : deref h1 tree = Ok o) by (unfold deref; now rewrite Ho).
  unfold SDCard._update. rewrite bind_unfold, Hc.
  unfold_sdcard. unfold InternalFileTree.__bool__. run.
  destruct o as [ty pa rd sz md mt [| d ds] cd par fp]; [now contradiction Hne |].
  repeat (rewrite Hd; run).
  destruct (InternalFileTree.to_api_file_tree_rec _ _ _) as [api | x |];
    rewrite <- ?app_assoc; reflexivity.
Qed.

(** C5. [sd_state_changed] sends the inserted signal only when the state
    is [INITIALISING] and the new state is [PRESENT]. On that transition,
    with a tree stored in a well-formed store, the call returns, the state
    becomes [PRESENT] and the signal is sent once, as the last event, with
    root "/" and the conversion of the stored tree; a call that does not
    complete sends nothing and leaves the state alone. A cycle that starts
    in [UNSURE], whose listing has at least one line and whose tree is
    built without an exception, ends in [PRESENT] with no inserted signal
    and no probe; on a well-formed store it returns, and its last effect is
    the updated signal with state [PRESENT]. *)
Theorem inserted_signal_only_from_initialising :
  (forall (w : World) (new_state : SDState),
      exists evs,
        trace (snd (SDCard.sd_state_changed new_state w)) = trace w ++ evs /\
        (inserted_events evs = [] \/
         (sd_state (self w) = INITIALISING /\ new_state = PRESENT /\
          fst (SDCard.sd_state_changed new_state w) = Ok tt /\
          exists t files,
            file_tree (self w) = Some t /\
            InternalFileTree.to_api_file_tree t w = (Ok files, w) /\
            inserted_events evs = [inserted_signal "/" files]))) /\
  (forall h e t ls ps tr,
      wf_heap h -> (t < length h)%nat ->
      exists files,
        InternalFileTree.to_api_file_tree_rec (S (length h)) h t = Ok files /\
        SDCard.sd_state_changed PRESENT
          (mkWorld h (mkSDCard e INITIALISING (Some t)) ls ps tr)
        = (Ok tt,
           mkWorld h (mkSDCard e PRESENT (Some t)) ls ps
             (tr ++ [Log DEBUG (SDStateChangedFromTo INITIALISING PRESENT);
                     Log DEBUG SDCardInserted;
                     inserted_signal "/" files]))) /\
  (forall h e ft ls ps tr,
      let r := SDCard.sd_state_changed PRESENT
                 (mkWorld h (mkSDCard e INITIALISING ft) ls ps tr) in
      match fst r with
      | Ok _ =>
          sd_state (self (snd r)) = PRESENT /\
          exists files,
            inserted_events (trace (snd r))
            = inserted_events tr ++ [inserted_signal "/" files]
      | _ =>
          sd_state (self (snd r)) = INITIALISING /\
          inserted_events (trace (snd r)) = inserted_events tr
      end) /\
  (forall h e ft line lines ls ps tr tree w1,
      let w := mkWorld h (mkSDCard e UNSURE ft)
                 (mkCollected (line :: lines) :: ls) ps tr in
      SDCard.construct_file_tree w = (Ok tree, w1) ->
      sd_state (self (snd (SDCard._update w))) = PRESENT /\
      exists evs,
        trace (snd (SDCard._update w)) = tr ++ evs /\
        inserted_events evs = [] /\
        probe_requests evs = 0%nat /\
        In (Log DEBUG (SDStateChangedFromTo UNSURE PRESENT)) evs) /\
  (forall h e ft line lines ls ps tr tree w1,
      let w := mkWorld h (mkSDCard e UNSURE ft)
                 (mkCollected (line :: lines) :: ls) ps tr in
      wf_heap h ->
      SDCard.construct_file_tree w = (Ok tree, w1) ->
      fst (SDCard._update w) = Ok tt /\
      file_tree (self (snd (SDCard._update w))) = Some tree /\
      exists api,
        last (trace (snd (SDCard._update w))) = Some (updated_signal api PRESENT)).
Proof.
  split; [| split; [| split; [| split]]].
  - intros [h [e st ft] ls ps tr] new_state.
    destruct st, new_state; unfold_sdcard; run.
    all: try (eexists; split; [rewrite <- ?app_assoc; reflexivity | left; reflexivity]).
    destruct ft as [t |]; run.
    + destruct (InternalFileTree.to_api_file_tree_rec _ _ _) as [files | x |] eqn:Hapi; run.
      * eexists; split; [rewrite <- ?app_assoc; reflexivity |].
        right. repeat split. exists t, files. rewrite Hapi. repeat split.
      * eexists; split; [rewrite <- ?app_assoc; reflexivity | left; reflexivity].
      * eexists; split; [rewrite <- ?app_assoc; reflexivity | left; reflexivity].
    + eexists; split; [rewrite <- ?app_assoc; reflexivity | left; reflexivity].
  - intros h e t ls ps tr Hwf Ht.
    destruct (to_api_file_tree_rec_total h (S (length h)) Hwf t Ht) as [files Hf]; [lia |].
    exists files. split; [exact Hf |].
    unfold_sdcard. run. rewrite Hf. run. rewrite <- !app_assoc. reflexivity.
  - intros. subst r. unfold_sdcard. run.
    destruct ft as [t |]; run;
      try destruct (InternalFileTree.to_api_file_tree_rec _ _ _) as [files | x |];
      run; rewrite ?inserted_events_app; simpl; rewrite ?app_nil_r; eauto.
  - intros h e ft line lines ls ps tr tree w1 w Hc.
    destruct (update_from_unsure h e ft line lines ls ps tr tree w1 Hc)
      as (evs & Hevs & Hup).
    apply listing_events_silent in Hevs as (Hins & _ & Hpr).
    cbv beta zeta in Hup. fold w in Hup. rewrite Hup.
    destruct (InternalFileTree.to_api_file_tree_rec _ _ _) as [api | x |]; simpl.
    all: split; [reflexivity |].
    all: eexists; split; [reflexivity |].
    all: rewrite inserted_events_app, probe_requests_app, Hins, Hpr.
    all: repeat split; try reflexivity.
    all: apply in_or_app; right; left; reflexivity.
  - intros h e ft line lines ls ps tr tree w1 w Hwf Hc.
    destruct (update_from_unsure h e ft line lines ls ps tr tree w1 Hc)
      as (evs & _ & Hup).
    cbv beta zeta in Hup. fold w in Hup. rewrite Hup.
    pose proof (returns_construct_file_tree w Hwf) as Hr.
    rewrite Hc in Hr. destruct Hr as (Hwf1 & Ht1 & _).
    destruct (to_api_file_tree_rec_total (heap w1) (S (length (heap w1))) Hwf1
                tree Ht1) as [api Hapi]; [lia |].
    rewrite Hapi. simpl. repeat split. exists api.
    replace (tr ++ evs ++ [Log DEBUG (SDStateChangedFromTo UNSURE PRESENT);
                           updated_signal api PRESENT])
      with ((tr ++ evs ++ [Log DEBUG (SDStateChangedFromTo UNSURE PRESENT)])
              ++ [updated_signal api PRESENT])
      by (rewrite <- !app_assoc; reflexivity).
    apply last_snoc.
Qed.

(** The transition with the empty tree stored, and a first cycle from the
    initial state whose listing is the one line "x 1". *)
Lemma inserted_signal_only_from_initialising_witness :
  let w := SDCard.boot [mkCollected ["x 1"]] [] in
  wf_heap [mount_node] /\
  (0 < length [mount_node])%nat /\
  SDCard.sd_state_changed PRESENT
    (mkWorld [mount_node] (mkSDCard false INITIALISING (Some 0%nat)) [] [] [])
  = (Ok tt,
     mkWorld [mount_node] (mkSDCard false PRESENT (Some 0%nat)) [] []
       [Log DEBUG (SDStateChangedFromTo INITIALISING PRESENT);
        Log DEBUG SDCardInserted;
        inserted_signal "/" empty_mount]) /\
  wf_heap [] /\
  SDCard.construct_file_tree w = (Ok 0%nat, snd (SDCard.construct_file_tree w)) /\
  (sd_state (self (snd (SDCard._update w))) = PRESENT /\
   exists evs,
     trace (snd (SDCard._update w)) = [] ++ evs /\
     inserted_events evs = [] /\
     probe_requests evs = 0%nat /\
     In (Log DEBUG (SDStateChangedFromTo UNSURE PRESENT)) evs) /\
  (fst (SDCard._update w) = Ok tt /\
   file_tree (self (snd (SDCard._update w))) = Some 0%nat /\
   exists api,
     last (trace (snd (SDCard._update w))) = Some (updated_signal api PRESENT)).
Proof.
  assert (Hwf : wf_heap []) by (intros r o H; discriminate H).
  assert (Hwf1 : wf_heap [mount_node])
    by exact (wf_heap_alloc [] mount_node Hwf eq_refl eq_refl).
  assert (Hlt : (0 < length [mount_node])%nat) by (simpl; lia).
  assert (Hc : SDCard.construct_file_tree (SDCard.boot [mkCollected ["x 1"]] [])
               = (Ok 0%nat,
                  snd (SDCard.construct_file_tree (SDCard.boot [mkCollected ["x 1"]] []))))
    by (vm_compute; reflexivity).
  split; [exact Hwf1 |]. split; [exact Hlt |]. split.
  { destruct (proj1 (proj2 inserted_signal_only_from_initialising)
                [mount_node] false 0%nat [] [] [] Hwf1 Hlt) as (files & Hf & Heq).
    assert (E : files = empty_mount) by (vm_compute in Hf; now injection Hf as <-).
    rewrite Heq, E. reflexivity. }
  split; [exact Hwf |]. split; [exact Hc |]. split.
  - exact (proj1 (proj2 (proj2 (proj2 inserted_signal_only_from_initialising)))
             [] false None "x 1" [] [] [] [] 0%nat _ Hc).
  - exact (proj2 (proj2 (proj2 (proj2 inserted_signal_only_from_initialising)))
             [] false None "x 1" [] [] [] [] 0%nat _ Hwf Hc).
Defined.

(** A first cycle from [UNSURE] whose listing is not empty and that does
    not reach [PRESENT]. The line "benchy.gco" has no size:
    [child_from_path] raises [ValueError]. The line [huge_line] is a name
    and a size, but the thousandth of the size does not fit a float:
    [child_from_path] raises [OverflowError]. Either way the cycle ends
    there, in state [UNSURE], without any signal. *)
Lemma nonempty_listing_without_transition :
  let run line := SDCard._update (SDCard.boot [mkCollected [line]] []) in
  sd_state (self (SDCard.boot [mkCollected ["benchy.gco"]] [])) = UNSURE /\
  fst (run "benchy.gco") = Raise ValueError /\
  sd_state (self (snd (run "benchy.gco"))) = UNSURE /\
  fst (run huge_line) = Raise OverflowError /\
  sd_state (self (snd (run huge_line))) = UNSURE /\
  UNSURE <> PRESENT.
Proof.
  cbv zeta. repeat split; try (vm_compute; reflexivity). discriminate.
Qed.

(** ** More on the cycle *)

Lemma deref_new (h : list InternalFileTree) (o : InternalFileTree) :
  deref (h ++ [o]) (length h) = Ok o.
Proof. unfold deref. now rewrite list_lookup_middle. Qed.

Lemma to_api_new_leaf (fuel : nat) (h : list InternalFileTree) (o : InternalFileTree) :
  children_dict o = [] ->
  InternalFileTree.to_api_file_tree_rec (S fuel) (h ++ [o]) (length h)
  = Ok (mkFileTree (FileType_name (type o)) (path o) (ro o) (size o)
          (m_date o) (m_time o) None).
Proof.
  intros Hc. cbn [InternalFileTree.to_api_file_tree_rec].
  rewrite deref_new. simpl. rewrite Hc. reflexivity.
Qed.

Ltac run_new_mount :=
  repeat (first [ rewrite deref_new
                | rewrite (to_api_new_leaf _ _ mount_node eq_refl)
                | progress run ]).

(** A cycle in state [ABSENT]: no request, no wait, no reply consumed;
    the stored tree becomes a new empty tree and the updated signal
    carries it with state [ABSENT]. *)
Lemma update_in_absent (h : list InternalFileTree) (e : bool) (ft : option ref)
    (ls : list Collected) (ps : list Matchable) (tr : list Event) :
  SDCard._update (mkWorld h (mkSDCard e ABSENT ft) ls ps tr)
  = (Ok tt,
     mkWorld (h ++ [mount_node]) (mkSDCard e ABSENT (Some (length h))) ls ps
       (tr ++ [updated_signal empty_mount ABSENT])).
Proof.
  unfold SDCard._update, SDCard.construct_file_tree.
  rewrite !bind_unfold, init_without_parent.
  unfold_sdcard. unfold InternalFileTree.__bool__. fold mount_node.
  run. fold mount_node. run_new_mount. reflexivity.
Qed.

(** X1. State [ABSENT] is absorbing for the poller: [n] cycles in a row
    all return, send no command, consume no reply and leave the state
    [ABSENT]; the trace gains [n] updated signals with an empty tree and
    nothing else, and each cycle allocates one node. *)
Theorem absent_absorbs_cycles (n : nat) :
  forall h e ft ls ps tr,
    exists ft',
      for_each (replicate n Cycle) react (mkWorld h (mkSDCard e ABSENT ft) ls ps tr)
      = (Ok tt,
         mkWorld (h ++ replicate n mount_node) (mkSDCard e ABSENT ft') ls ps
           (tr ++ replicate n (updated_signal empty_mount ABSENT))).
Proof.
  induction n as [| n IH]; intros h e ft ls ps tr.
  - exists ft. simpl. now rewrite !app_nil_r.
  - cbn [replicate for_each react]. rewrite bind_unfold, update_in_absent.
    destruct (IH (h ++ [mount_node]) e (Some (length h)) ls ps
                (tr ++ [updated_signal empty_mount ABSENT])) as [ft' Hn].
    exists ft'. rewrite Hn. now rewrite <- !app_assoc.
Qed.

Ltac run_empty_listing :=
  unfold SDCard._update, SDCard.construct_file_tree;
  rewrite !bind_unfold, init_without_parent;
  unfold_sdcard;
  unfold InternalFileTree.__bool__, SDCard.enqueue_collecting,
    SDCard.wait_for_collecting, SDCard.next_listing;
  fold mount_node; run; cbn [for_each]; fold mount_node; run_new_mount;
  rewrite <- ?app_assoc.

(** X2. A cycle in state [PRESENT] whose listing is empty runs the probe
    once. Probe not confirmed: the state stays [PRESENT]. Probe confirmed
    without the presence group: the state becomes [ABSENT] and the ejected
    signal is sent once, with root "/", before the updated signal. Probe
    confirmed with the presence group: the state stays [PRESENT] and no
    change is logged. In every case the guard ends clear and the empty
    tree replaces the stored one. *)
Theorem update_present_empty_listing :
  forall h e ft ls ps tr,
    let start p := mkWorld h (mkSDCard e PRESENT ft) (mkCollected [] :: ls) (p :: ps) tr in
    let finish st evs :=
      (Ok tt,
       mkWorld (h ++ [mount_node]) (mkSDCard false st (Some (length h))) ls ps
         (tr ++ [Enqueued "M20"; Waited "M20"; Log DEBUG (ConstructedTree (length h));
                 Enqueued "M21"; Waited "M21"]
             ++ evs ++ [updated_signal empty_mount st])) in
    (forall m, SDCard._update (start (mkMatchable false m))
               = finish PRESENT [Log DEBUG FailedDeterminingPresence]) /\
    SDCard._update (start card_absent)
    = finish ABSENT [Log DEBUG (SDStateChangedFromTo PRESENT ABSENT);
                     Log DEBUG SDCardRemoved; ejected_signal "/"] /\
    (forall text, SDCard._update (start (card_present text)) = finish PRESENT []).
Proof.
  intros. subst start finish. cbv beta.
  split; [| split]; intros; run_empty_listing; reflexivity.
Qed.

(** X3. A cycle in state [UNSURE] or [INITIALISING] whose listing is
    empty, for two of the outcomes of its probe. Probe confirmed without
    the presence group: the cycle ends in [ABSENT] with the updated signal
    as its only signal, so a card that was never seen present is not
    reported as ejected. Probe not confirmed: the state is kept. In both
    the probe is run once. (A probe that reports the card present leads
    to a second probe and is not part of this statement.) *)
Theorem update_unsure_empty_listing :
  forall h e ft ls ps tr st,
    st = UNSURE \/ st = INITIALISING ->
    let start p := mkWorld h (mkSDCard e st ft) (mkCollected [] :: ls) (p :: ps) tr in
    let finish st' evs :=
      (Ok tt,
       mkWorld (h ++ [mount_node]) (mkSDCard false st' (Some (length h))) ls ps
         (tr ++ [Enqueued "M20"; Waited "M20"; Log DEBUG (ConstructedTree (length h));
                 Enqueued "M21"; Waited "M21"]
             ++ evs ++ [updated_signal empty_mount st'])) in
    SDCard._update (start card_absent)
    = finish ABSENT [Log DEBUG (SDStateChangedFromTo st ABSENT)] /\
    (forall m, SDCard._update (start (mkMatchable false m))
               = finish st [Log DEBUG FailedDeterminingPresence]).
Proof.
  intros h e ft ls ps tr st [-> | ->] start finish; subst start finish; cbv beta.
  all: split; intros; run_empty_listing; reflexivity.
Qed.

Lemma update_unsure_empty_listing_witness :
  (UNSURE = UNSURE \/ UNSURE = INITIALISING) /\
  SDCard._update (SDCard.boot [mkCollected []] [card_absent])
  = (Ok tt,
     mkWorld [mount_node] (mkSDCard false ABSENT (Some 0%nat)) [] []
       [Enqueued "M20"; Waited "M20"; Log DEBUG (ConstructedTree 0%nat);
        Enqueued "M21"; Waited "M21";
        Log DEBUG (SDStateChangedFromTo UNSURE ABSENT);
        updated_signal empty_mount ABSENT]).
Proof.
  split; [left; reflexivity |].
  exact (proj1 (update_unsure_empty_listing [] false None [] [] [] UNSURE
                  (or_introl eq_refl))).
Defined.

(** ** What tree building keeps *)

Lemma grows_refl (w : World) : grows w w.
Proof.
  split; auto.
  - exists []. split; [now rewrite app_nil_r | reflexivity].
  - intros r o H. now exists o.
Qed.

Lemma grows_trans (w1 w2 w3 : World) : grows w1 w2 -> grows w2 w3 -> grows w1 w3.
Proof.
  intros [Hs1 Hl1 Hp1 (e1 & Ht1 & Hq1) Hn1 Ho1] [Hs2 Hl2 Hp2 (e2 & Ht2 & Hq2) Hn2 Ho2].
  split; try congruence.
  - exists (e1 ++ e2). split.
    + rewrite Ht2, Ht1. now rewrite app_assoc.
    + rewrite forallb_app, Hq1, Hq2. reflexivity.
  - lia.
  - intros r o Hr. destruct (Ho1 r o Hr) as (o' & Hr' & Hh & Hp).
    destruct (Ho2 r o' Hr') as (o'' & Hr'' & Hh' & Hp').
    exists o''. split; [exact Hr'' |]. split; [now rewrite Hh' | now rewrite Hp'].
Qed.

Lemma grower_bind {A B} (m : M A) (f : A -> M B) :
  grower m -> (forall a, grower (f a)) -> grower (m ≫= f).
Proof.
  intros Hm Hf w. rewrite bind_unfold.
  specialize (Hm w). destruct (m w) as [[a | e |] w1]; simpl in *; auto.
  eapply grows_trans; [exact Hm | apply Hf].
Qed.

Lemma grower_ret {A} (a : A) : grower (mret a : M A).
Proof. intros w. apply grows_refl. Qed.

Lemma grower_raise {A} (e : Exn) : grower (raise e : M A).
Proof. intros w. apply grows_refl. Qed.

Lemma grower_stuck {A} : grower (stuck : M A).
Proof. intros w. apply grows_refl. Qed.

Lemma grower_read {A} (f : list InternalFileTree -> Outcome A) : grower (read f).
Proof. intros w. apply grows_refl. Qed.

Lemma grower_get_heap : grower get_heap.
Proof. intros w. apply grows_refl. Qed.

Lemma grower_load (r : ref) : grower (load r).
Proof. apply grower_read. Qed.

Lemma grower_log_debug (m : LogMsg) : grower (log_debug m).
Proof.
  intros w. split; simpl; auto.
  - exists [Log DEBUG m]. split; reflexivity.
  - intros r o H. now exists o.
Qed.

Lemma grower_alloc (o : InternalFileTree) : grower (alloc o).
Proof.
  intros w. split; simpl; auto.
  - exists []. split; [now rewrite app_nil_r | reflexivity].
  - rewrite length_app. lia.
  - intros r x H. exists x. split; [now apply lookup_app_l_Some | auto].
Qed.

Lemma grower_modify (r : ref) (f : InternalFileTree -> InternalFileTree) :
  (forall o, InternalFileTree.__hash__ (f o) = InternalFileTree.__hash__ o
             /\ path (f o) = path o) ->
  grower (modify r f).
Proof.
  intros Hf w. unfold modify, load, read, deref.
  rewrite bind_unfold. destruct (heap w !! r) as [o |] eqn:Hr; simpl.
  - split; simpl; auto.
    + exists []. split; [now rewrite app_nil_r | reflexivity].
    + now rewrite length_insert.
    + intros r' x Hx. destruct (decide (r = r')) as [<- | Hne].
      * exists (f o). split.
        -- apply list_lookup_insert_eq. now apply lookup_lt_Some in Hr.
        -- pose proof (eq_trans (eq_sym Hx) Hr) as E. injection E as ->. apply Hf.
      * exists x. split; [now rewrite list_lookup_insert_ne | auto].
  - apply grows_refl.
Qed.

Create HintDb grower.

#[local] Hint Resolve grower_get_heap grower_load grower_log_debug grower_alloc
  : grower.

Ltac grow_step :=
  first
    [ assumption
    | solve [ auto 1 with grower nocore ]
    | apply grower_ret
    | apply grower_raise
    | apply grower_stuck
    | apply grower_modify; intros ?; split; reflexivity
    | apply grower_bind; [| intros ?] ].

Ltac grow_case :=
  match goal with
  | |- grower (match ?x with _ => _ end) => destruct x
  | |- grower (if ?b then _ else _) => destruct b
  end.

Ltac grow := repeat (first [ grow_step | grow_case ]).

Lemma grower_get_full_path (r : ref) : grower (InternalFileTree.get_full_path r).
Proof. apply grower_read. Qed.

#[local] Hint Resolve grower_get_full_path : grower.

Lemma grower_init (t : FileType) (p : string) (r : option bool)
    (s d tm : option Z) (parent : option ref) :
  grower (InternalFileTree.__init__ t p r s d tm parent).
Proof. unfold InternalFileTree.__init__. grow. Qed.

Lemma grower_set_parent (r : ref) (p : option ref) :
  grower (InternalFileTree.set_parent r p).
Proof. unfold InternalFileTree.set_parent. grow. Qed.

#[local] Hint Resolve grower_init grower_set_parent : grower.

Lemma grower_add_child (r c : ref) : grower (InternalFileTree.add_child r c).
Proof. unfold InternalFileTree.add_child. grow. Qed.

#[local] Hint Resolve grower_add_child : grower.

Lemma grower_child_from_path (fuel : nat) :
  forall (r : ref) (line : string),
    grower (InternalFileTree.child_from_path fuel r line).
Proof.
  induction fuel as [| fuel IH]; intros r line; simpl.
  - apply grower_stuck.
  - grow.
Qed.

#[local] Hint Resolve grower_child_from_path : grower.

Lemma grower_for_each {A} (xs : list A) (body : A -> M unit) :
  (forall x, grower (body x)) -> grower (for_each xs body).
Proof.
  intros Hbody. induction xs as [| x xs IH]; simpl.
  - apply grower_ret.
  - apply grower_bind; [apply Hbody | intros _; exact IH].
Qed.

Lemma grower_listing_line (tree : ref) (line : string) :
  grower
    (InternalFileTree.child_from_path
       (S (String.length (Str.lower line))) tree (Str.lower line) ;; mret tt).
Proof. grow. Qed.

Lemma grows_alloc_world (w : World) (o : InternalFileTree) :
  grows w (mkWorld (heap w ++ [o]) (self w) (listings w) (probes w) (trace w)).
Proof.
  split; simpl; auto.
  - exists []. split; [now rewrite app_nil_r | reflexivity].
  - rewrite length_app. lia.
  - intros r x H. exists x. split; [now apply lookup_app_l_Some | auto].
Qed.

(** What [construct_file_tree] does outside state [ABSENT], whatever
    its outcome: the listing request, the wait, one reply taken, then only
    debug records and new or updated nodes. *)
Lemma construct_file_tree_effect (w : World) :
  sd_state (self w) <> ABSENT ->
  exists wa,
    grows wa (snd (SDCard.construct_file_tree w)) /\
    heap wa = heap w ++ [mount_node] /\
    self wa = self w /\
    listings wa = tail (listings w) /\
    probes wa = probes w /\
    trace wa = trace w ++ [Enqueued "M20"; Waited "M20"].
Proof.
  intros Hst. unfold SDCard.construct_file_tree.
  rewrite bind_unfold, init_without_parent.
  unfold SDCard.enqueue_collecting, SDCard.wait_for_collecting,
    SDCard.next_listing.
  run. fold mount_node.
  destruct (SDState_eqb (sd_state (self w)) ABSENT) eqn:Habs.
  { destruct (sd_state (self w)); try discriminate. now contradiction Hst. }
  run. destruct (listings w) as [| c rest]; run.
  all: rewrite <- !app_assoc; cbn [app].
  all: match goal with
       | |- context [for_each ?xs ?body ?wA] =>
           assert (Hp : grower (for_each xs body))
             by (apply grower_for_each; intros x; apply grower_listing_line);
           specialize (Hp wA); exists wA
       end.
  all: split; [| repeat split; reflexivity].
  all: destruct (for_each _ _ _) as [[u | x |] w2]; simpl in *; try exact Hp.
  all: eapply grows_trans; [exact Hp |].
  all: split; simpl; auto;
    [ exists [Log DEBUG (ConstructedTree (length (heap w)))]; split; reflexivity
    | intros r o Hr; now exists o ].
Qed.

(** X4. Outside state [ABSENT], [construct_file_tree] sends the listing
    command exactly once and waits once, takes the next listing reply
    and no other, and leaves the instance and the probe replies alone, whether
    it returns or raises on a malformed line; apart from the request and
    the wait the trace gains debug records only. *)
Theorem construct_file_tree_one_request (w : World) :
  sd_state (self w) <> ABSENT ->
  let w' := snd (SDCard.construct_file_tree w) in
  self w' = self w /\
  probes w' = probes w /\
  listings w' = tail (listings w) /\
  exists evs,
    trace w' = trace w ++ [Enqueued "M20"; Waited "M20"] ++ evs /\
    forallb is_debug_log evs = true.
Proof.
  intros Hst w'. subst w'.
  destruct (construct_file_tree_effect w Hst) as (wa & Hg & _ & Hs & Hl & Hp & Ht).
  destruct Hg as [Gs Gl Gp (evs & Gt & Ge) _ _].
  repeat split; try congruence.
  exists evs. split; [| exact Ge]. rewrite Gt, Ht. now rewrite <- app_assoc.
Qed.

Lemma construct_file_tree_one_request_witness :
  let w := SDCard.boot [mkCollected ["a/b 1"; "oops"]; mkCollected []] [] in
  sd_state (self w) <> ABSENT /\
  fst (SDCard.construct_file_tree w) = Raise ValueError /\
  listings (snd (SDCard.construct_file_tree w)) = [mkCollected []].
Proof.
  assert (H : sd_state (self (SDCard.boot [mkCollected ["a/b 1"; "oops"];
                                           mkCollected []] [])) <> ABSENT)
    by discriminate.
  split; [exact H |]. split; [vm_compute; reflexivity |].
  exact (proj1 (proj2 (proj2 (construct_file_tree_one_request _ H)))).
Defined.

(** X5. [construct_file_tree] never drops an object of the store and
    never changes the fingerprint (type, read-only flag, size, date, time)
    or the name of one: what the hash of a stored node is computed from
    stays what it was when the node entered a descendants set. *)
Theorem construct_file_tree_keeps_nodes (w : World) (r : ref) (o : InternalFileTree) :
  heap w !! r = Some o ->
  exists o',
    heap (snd (SDCard.construct_file_tree w)) !! r = Some o' /\
    InternalFileTree.__hash__ o' = InternalFileTree.__hash__ o /\
    path o' = path o.
Proof.
  intros Hr.
  assert (Hcase : sd_state (self w) = ABSENT \/ sd_state (self w) <> ABSENT)
    by (destruct (sd_state (self w)); [right | right | right | left];
        (reflexivity || discriminate)).
  destruct Hcase as [Habs | Hst].
  - unfold SDCard.construct_file_tree.
    rewrite bind_unfold, init_without_parent. run. rewrite Habs. simpl.
    exists o. split; [now apply lookup_app_l_Some | auto].
  - destruct (construct_file_tree_effect w Hst) as (wa & Hg & Hh & _).
    apply (grows_nodes _ _ Hg). rewrite Hh. now apply lookup_app_l_Some.
Qed.

Lemma construct_file_tree_keeps_nodes_witness :
  let w := snd (SDCard.construct_file_tree
                  (SDCard.boot [mkCollected ["x 1"]; mkCollected ["x 2"]] [])) in
  let x := mkInternalFileTree FILE "x" None (Some 1) None None [] [] (Some 0%nat) "/x" in
  heap w !! 1%nat = Some x /\
  exists o',
    heap (snd (SDCard.construct_file_tree w)) !! 1%nat = Some o' /\
    InternalFileTree.__hash__ o' = InternalFileTree.__hash__ x /\
    path o' = path x.
Proof.
  assert (H : heap (snd (SDCard.construct_file_tree
                           (SDCard.boot [mkCollected ["x 1"]; mkCollected ["x 2"]] [])))
              !! 1%nat
              = Some (mkInternalFileTree FILE "x" None (Some 1) None None [] []
                        (Some 0%nat) "/x"))
    by (vm_compute; reflexivity).
  split; [exact H |].
  exact (construct_file_tree_keeps_nodes _ _ _ H).
Defined.

(** ** The probe *)

(** X6. A confirmed probe without the presence group takes the machine
    to [ABSENT] from every state; the ejected signal is sent, once and
    with root "/", exactly when the state was [PRESENT]. The guard ends
    clear and the stored tree is kept. *)
Theorem decide_presence_absent :
  forall h e st ft ls ps tr,
    SDCard.decide_presence (mkWorld h (mkSDCard e st ft) ls (card_absent :: ps) tr)
    = (Ok tt,
       mkWorld h (mkSDCard false ABSENT ft) ls ps
         (tr ++ [Enqueued "M21"; Waited "M21";
                 Log DEBUG (SDStateChangedFromTo st ABSENT)]
             ++ (if SDState_eqb st PRESENT
                 then [Log DEBUG SDCardRemoved; ejected_signal "/"]
                 else []))).
Proof.
  intros. destruct st; unfold_sdcard; run; rewrite <- !app_assoc; reflexivity.
Qed.

(** X7. A confirmed probe with the presence group, in a state other
    than [INITIALISING]: the machine ends in [PRESENT] without any signal;
    from [PRESENT] not even the change is logged, from [UNSURE] and
    [ABSENT] it is. In [INITIALISING] with a stored tree the inserted
    signal carries the conversion of that stored tree. *)
Theorem decide_presence_present :
  (forall h e st ft ls ps tr text,
      st <> INITIALISING ->
      SDCard.decide_presence
        (mkWorld h (mkSDCard e st ft) ls (card_present text :: ps) tr)
      = (Ok tt,
         mkWorld h (mkSDCard false PRESENT ft) ls ps
           (tr ++ [Enqueued "M21"; Waited "M21"]
               ++ (if SDState_eqb st PRESENT
                   then []
                   else [Log DEBUG (SDStateChangedFromTo st PRESENT)])))) /\
  (forall h e t ls ps tr text files,
      InternalFileTree.to_api_file_tree_rec (S (length h)) h t = Ok files ->
      SDCard.decide_presence
        (mkWorld h (mkSDCard e INITIALISING (Some t)) ls (card_present text :: ps) tr)
      = (Ok tt,
         mkWorld h (mkSDCard false PRESENT (Some t)) ls ps
           (tr ++ [Enqueued "M21"; Waited "M21";
                   Log DEBUG (SDStateChangedFromTo INITIALISING PRESENT);
                   Log DEBUG SDCardInserted;
                   inserted_signal "/" files]))).
Proof.
  split.
  - intros h e st ft ls ps tr text Hst.
    destruct st; try (now contradiction Hst);
      unfold_sdcard; run; rewrite <- ?app_assoc; reflexivity.
  - intros h e t ls ps tr text files Hapi.
    unfold_sdcard. run. rewrite Hapi. run. rewrite <- !app_assoc. reflexivity.
Qed.

Lemma decide_presence_present_witness :
  UNSURE <> INITIALISING /\
  InternalFileTree.to_api_file_tree_rec 2 [mount_node] 0%nat = Ok empty_mount /\
  SDCard.decide_presence (SDCard.boot [] [card_present "ok"])
  = (Ok tt,
     mkWorld [] (mkSDCard false PRESENT None) [] []
       [Enqueued "M21"; Waited "M21"; Log DEBUG (SDStateChangedFromTo UNSURE PRESENT)]) /\
  SDCard.decide_presence
    (mkWorld [mount_node] (mkSDCard false INITIALISING (Some 0%nat)) []
       [card_present "ok"] [])
  = (Ok tt,
     mkWorld [mount_node] (mkSDCard false PRESENT (Some 0%nat)) [] []
       [Enqueued "M21"; Waited "M21";
        Log DEBUG (SDStateChangedFromTo INITIALISING PRESENT);
        Log DEBUG SDCardInserted;
        inserted_signal "/" empty_mount]).
Proof.
  assert (H1 : UNSURE <> INITIALISING) by discriminate.
  assert (H2 : InternalFileTree.to_api_file_tree_rec 2 [mount_node] 0%nat = Ok empty_mount)
    by reflexivity.
  split; [exact H1 |]. split; [exact H2 |]. split.
  - exact (proj1 decide_presence_present [] false UNSURE None [] [] [] "ok" H1).
  - exact (proj2 decide_presence_present [mount_node] false 0%nat [] [] [] "ok"
             empty_mount H2).
Defined.

(** X8. A confirmed probe whose reply the presence pattern does not match
    at all: [decide_presence] raises [AttributeError] (it asks the missing
    match for its groups); the state and the stored tree are the ones from
    before and the guard is clear. *)
Theorem decide_presence_no_match :
  forall h e st ft ls ps tr,
    SDCard.decide_presence
      (mkWorld h (mkSDCard e st ft) ls (mkMatchable true None :: ps) tr)
    = (Raise AttributeError,
       mkWorld h (mkSDCard false st ft) ls ps
         (tr ++ [Enqueued "M21"; Waited "M21"])).
Proof.
  intros. unfold_sdcard. run. rewrite <- !app_assoc. reflexivity.
Qed.

(** X9. Whatever the reply and the outcome, [decide_presence] sends the
    probe command exactly once, waits once, takes at most the next probe
    reply, leaves the store and the listing replies alone, and ends with
    the guard clear. *)
Theorem decide_presence_frame (w : World) :
  let w' := snd (SDCard.decide_presence w) in
  expecting_insertion (self w') = false /\
  heap w' = heap w /\
  listings w' = listings w /\
  probes w' = tail (probes w) /\
  exists evs,
    trace w' = trace w ++ [Enqueued "M21"; Waited "M21"] ++ evs /\
    probe_requests evs = 0%nat /\ waits evs = 0%nat.
Proof.
  destruct w as [h [e st ft] ls [| [[|] [[g |] |]] ps] tr].
  all: destruct st; unfold_sdcard; run.
  all: try destruct ft as [t |]; run;
    try destruct (InternalFileTree.to_api_file_tree_rec _ _ _) as [files | x |]; run.
  all: repeat split.
  all: eexists; split; [rewrite <- ?app_assoc; cbn [app]; reflexivity
                       | split; reflexivity].
Qed.

(** ** What a cycle does in general *)

Lemma debug_log_not_error (evs : list Event) :
  forallb is_debug_log evs = true ->
  forallb (fun e => negb (is_error_log e)) evs = true.
Proof.
  induction evs as [| e evs IH]; simpl; [auto |].
  intros H. apply andb_true_iff in H as [He Hevs].
  rewrite (IH Hevs), andb_true_r.
  destruct e as [[|] m | | | | |]; simpl in *; auto.
Qed.

Lemma debug_log_counts (evs : list Event) :
  forallb is_debug_log evs = true ->
  probe_requests evs = 0%nat /\ waits evs = 0%nat
  /\ inserted_events evs = [] /\ ejected_events evs = [].
Proof.
  unfold probe_requests, waits, inserted_events, ejected_events.
  induction evs as [| e evs IH]; simpl; [auto |].
  intros H. apply andb_true_iff in H as [He Hevs].
  destruct (IH Hevs) as (Hp & Hw & Hi & Hj).
  destruct e as [[|] m | | | | |]; simpl in *; try discriminate; auto.
Qed.

Lemma waits_app (xs ys : list Event) :
  waits (xs ++ ys) = (waits xs + waits ys)%nat.
Proof. unfold waits. now rewrite List.filter_app, length_app. Qed.

Lemma state_absent_or_not (st : SDState) : st = ABSENT \/ st <> ABSENT.
Proof. destruct st; [right | right | right | left]; (reflexivity || discriminate). Qed.

(** Evaluate what is left of a cycle, remembering the lookup of the new
    tree and taking probe replies and conversions apart as they come. *)
Ltac run_cycle Hd :=
  repeat (first
    [ rewrite Hd
    | match goal with
      | |- context [match ?p with [] => _ | _ :: _ => _ end] =>
          is_var p; destruct p as [| [[|] [[? |] |]] ?]
      end
    | match goal with
      | |- context [InternalFileTree.to_api_file_tree_rec ?f ?hh ?t] =>
          destruct (InternalFileTree.to_api_file_tree_rec f hh t) eqn:?
      end
    | progress run ]).

(** All the ways a cycle on [w] can go. In state [ABSENT] the cycle is
    the one of [update_in_absent]; otherwise the tree is built (debug
    records [evd] after the request and the wait) and the rest of the
    cycle is evaluated for every state, stored tree, new tree, probe reply
    and conversion outcome. *)
Ltac cycle_cases w :=
  destruct (state_absent_or_not (sd_state (self w))) as [Habs | Hst];
  [ destruct w as [h [e st ft] ls ps tr]; simpl in Habs; subst st;
    rewrite update_in_absent
  | destruct (construct_file_tree_effect w Hst) as (wa & Hg & _ & Hs & Hl & Hp & Ht);
    destruct Hg as [Gs Gl Gp (evd & Gt & Ge) _ _];
    unfold SDCard._update; rewrite bind_unfold;
    destruct (SDCard.construct_file_tree w) as [[tree | x |] w1];
    simpl in Gs, Gl, Gp, Gt;
    destruct w as [h [e st ft] ls ps tr]; destruct w1 as [h1 s1 ls1 ps1 tr1];
    simpl in *; rewrite Hs in Gs; rewrite Hl in Gl; rewrite Hp in Gp;
    rewrite Ht in Gt; subst s1 ls1 ps1 tr1; clear Ht Hs Hl Hp;
    [ unfold_sdcard; unfold InternalFileTree.__bool__;
      destruct st; try (now contradiction Hst);
      destruct ft as [t |];
      (destruct (deref h1 tree) as [[ty pa rd sz md mt [| d ds] cd par fp] | x |]
         eqn:Hd);
      run_cycle Hd
    | | ] ].

(** X10. No cycle logs an error: the sanity check of [_update] (files
    seen in state [ABSENT]) cannot fire, because in [ABSENT] no listing is
    requested and the tree is empty, and the state becomes [ABSENT] during
    a cycle only after an empty tree. *)
Theorem update_never_logs_error (w : World) :
  exists evs,
    trace (snd (SDCard._update w)) = trace w ++ evs /\
    forallb (fun e => negb (is_error_log e)) evs = true.
Proof.
  cycle_cases w.
  all: try apply debug_log_not_error in Ge.
  all: simpl; rewrite <- ?app_assoc; eexists; (split; [reflexivity |]).
  all: rewrite ?forallb_app, ?Ge; reflexivity.
Qed.

(** X11. A cycle sends the probe command at most twice and waits at most
    three times (once for the listing, once per probe). *)
Theorem update_request_bounds (w : World) :
  exists evs,
    trace (snd (SDCard._update w)) = trace w ++ evs /\
    (probe_requests evs <= 2)%nat /\ (waits evs <= 3)%nat.
Proof.
  cycle_cases w.
  all: try (apply debug_log_counts in Ge as (Gp & Gw & _ & _)).
  all: simpl; rewrite <- ?app_assoc; eexists; (split; [reflexivity |]).
  all: rewrite ?probe_requests_app, ?waits_app, ?Gp, ?Gw.
  all: split; vm_compute; lia.
Qed.

(** X12. A cycle never takes the machine to [UNSURE] or [INITIALISING]:
    afterwards the state is the one from before, [PRESENT] or [ABSENT],
    whether the cycle returns or raises. *)
Theorem update_final_state (w : World) :
  let w' := snd (SDCard._update w) in
  sd_state (self w') = sd_state (self w)
  \/ sd_state (self w') = PRESENT
  \/ sd_state (self w') = ABSENT.
Proof.
  cycle_cases w.
  all: simpl; tauto.
Qed.

Lemma debug_log_not_updated (evs : list Event) :
  forallb is_debug_log evs = true -> updated_events evs = [].
Proof.
  unfold updated_events.
  induction evs as [| e evs IH]; simpl; [auto |].
  intros H. apply andb_true_iff in H as [He Hevs].
  destruct e as [[|] m | | | | |]; simpl in *; try discriminate; auto.
Qed.

Lemma updated_events_app (xs ys : list Event) :
  updated_events (xs ++ ys) = updated_events xs ++ updated_events ys.
Proof. apply List.filter_app. Qed.

(** X13. A cycle that returns has stored the newly built tree, and its
    last effect is the updated signal, sent exactly once, with the
    conversion of that new tree and the state the machine is left in. *)
Theorem update_signal_is_current (w : World) :
  fst (SDCard._update w) = Ok tt ->
  let w' := snd (SDCard._update w) in
  exists tree api,
    file_tree (self w') = Some tree /\
    last (trace w') = Some (updated_signal api (sd_state (self w'))) /\
    InternalFileTree.to_api_file_tree tree w' = (Ok api, w') /\
    exists evs,
      trace w' = trace w ++ evs /\ length (updated_events evs) = 1%nat.
Proof.
  cycle_cases w.
  all: unfold InternalFileTree.to_api_file_tree; run; intros Hok;
    try discriminate Hok.
  all: try (apply debug_log_not_updated in Ge).
  all: do 2 eexists; (split; [reflexivity |]); (split; [apply last_snoc |]).
  all: split;
    [ first [ rewrite length_app, Nat.add_1_r,
                (to_api_new_leaf _ _ mount_node eq_refl); reflexivity
            | match goal with
              | H : InternalFileTree.to_api_file_tree_rec _ _ _ = Ok _ |- _ =>
                  rewrite H; reflexivity
              end ]
    | rewrite <- ?app_assoc; eexists; (split; [reflexivity |]);
      rewrite ?updated_events_app, ?Ge; reflexivity ].
Qed.

Lemma update_signal_is_current_witness :
  let w := SDCard.boot [mkCollected ["x 1"]] [] in
  fst (SDCard._update w) = Ok tt /\
  exists tree api,
    file_tree (self (snd (SDCard._update w))) = Some tree /\
    last (trace (snd (SDCard._update w)))
    = Some (updated_signal api (sd_state (self (snd (SDCard._update w))))) /\
    InternalFileTree.to_api_file_tree tree (snd (SDCard._update w))
    = (Ok api, snd (SDCard._update w)) /\
    exists evs,
      trace (snd (SDCard._update w)) = trace w ++ evs /\
      length (updated_events evs) = 1%nat.
Proof.
  assert (H : fst (SDCard._update (SDCard.boot [mkCollected ["x 1"]] [])) = Ok tt)
    by (vm_compute; reflexivity).
  exact (conj H (update_signal_is_current _ H)).
Defined.

(** X14. The steady state: a cycle in state [PRESENT] whose listing has
    at least one line and is built without an exception, on a well-formed
    store, returns without a probe and without a change of state; the
    guard, the probe replies and the state are untouched, the new tree is
    stored, and the trace gains the listing request, the wait, debug
    records and the updated signal. *)
Theorem update_present_with_files :
  forall h e ft line lines ls ps tr tree w1,
    let w := mkWorld h (mkSDCard e PRESENT ft)
               (mkCollected (line :: lines) :: ls) ps tr in
    wf_heap h ->
    SDCard.construct_file_tree w = (Ok tree, w1) ->
    exists evd api,
      forallb is_debug_log evd = true /\
      InternalFileTree.to_api_file_tree tree w1 = (Ok api, w1) /\
      SDCard._update w
      = (Ok tt,
         mkWorld (heap w1) (mkSDCard e PRESENT (Some tree)) ls ps
           (tr ++ [Enqueued "M20"; Waited "M20"] ++ evd
               ++ [updated_signal api PRESENT])).
Proof.
  intros h e ft line lines ls ps tr tree w1 w Hwf Hc.
  assert (Hst : sd_state (self w) <> ABSENT) by discriminate.
  pose proof (construct_file_tree_nonempty h _ line lines ls ps tr tree w1
                Hst Hc) as (o & Ho & Hne).
  destruct (construct_file_tree_effect w Hst) as (wa & Hg & _ & Hs & Hl & Hp & Ht).
  pose proof (returns_construct_file_tree w Hwf) as Hr.
  rewrite Hc in Hg, Hr. destruct Hr as (Hwf1 & Ht1 & _).
  destruct Hg as [Gs Gl Gp (evd & Gt & Ge) _ _].
  destruct w1 as [h1 s1 ls1 ps1 tr1]. simpl in *.
  rewrite Hs in Gs. rewrite Hl in Gl. rewrite Hp in Gp. rewrite Ht in Gt.
  subst s1 ls1 ps1 tr1.
  destruct (to_api_file_tree_rec_total h1 (S (length h1)) Hwf1 tree Ht1)
    as [api Hapi]; [lia |].
  exists evd, api. split; [exact Ge |].
  split.
  { unfold InternalFileTree.to_api_file_tree, read. cbn [heap]. now rewrite Hapi. }
  assert (Hd : deref h1 tree = Ok o) by (unfold deref; now rewrite Ho).
  unfold SDCard._update. fold w. rewrite bind_unfold, Hc.
  unfold_sdcard. unfold InternalFileTree.__bool__. run.
  destruct o as [ty pa rd sz md mt [| d ds] cd par fp]; [now contradiction Hne |].
  repeat (rewrite Hd; run). rewrite Hapi. run.
  rewrite <- !app_assoc. reflexivity.
Qed.

Lemma update_present_with_files_witness :
  let w := mkWorld [] (mkSDCard false PRESENT None) [mkCollected ["x 1"]] [] [] in
  wf_heap [] /\
  SDCard.construct_file_tree w = (Ok 0%nat, snd (SDCard.construct_file_tree w)) /\
  fst (SDCard._update w) = Ok tt.
Proof.
  assert (Hwf : wf_heap []) by (intros r o H; discriminate H).
  assert (Hc : SDCard.construct_file_tree
                 (mkWorld [] (mkSDCard false PRESENT None) [mkCollected ["x 1"]] [] [])
               = (Ok 0%nat,
                  snd (SDCard.construct_file_tree
                         (mkWorld [] (mkSDCard false PRESENT None)
                            [mkCollected ["x 1"]] [] []))))
    by (vm_compute; reflexivity).
  split; [exact Hwf |]. split; [exact Hc |].
  destruct (update_present_with_files [] false None "x 1" [] [] [] [] 0%nat _ Hwf Hc)
    as (evd & api & _ & _ & Hu).
  cbv zeta. rewrite Hu. reflexivity.
Defined.

(** ** More on the tree *)

(** X15. A line without a directory part that does not consist of a name
    and a size separated by one blank, or whose size is not a number,
    makes [child_from_path] raise [ValueError] before it creates anything:
    the store is untouched and the trace gains only the record of the
    line being parsed. *)
Theorem child_from_path_malformed (fuel : nat) (self_ : ref) (line p : string)
    (w : World) :
  Str.split1 "/" (Str.strip "/" line) = [p] ->
  match Str.split " " p with
  | [name; str_size] => Str.int str_size = None
  | _ => True
  end ->
  InternalFileTree.child_from_path (S fuel) self_ line w
  = (Raise ValueError,
     mkWorld (heap w) (self w) (listings w) (probes w)
       (trace w ++ [Log DEBUG (ParsingLine line)])).
Proof.
  intros Hsplit Hbad. cbn [InternalFileTree.child_from_path].
  rewrite Hsplit. cbn [hd]. run.
  destruct (Str.split " " p) as [| name [| str_size [|]]]; run; try reflexivity.
  rewrite Hbad. reflexivity.
Qed.

Lemma child_from_path_malformed_witness :
  Str.split1 "/" (Str.strip "/" "a.gcode 12kb") = ["a.gcode 12kb"] /\
  Str.int "12kb" = None /\
  InternalFileTree.child_from_path 1 0%nat "a.gcode 12kb" (SDCard.boot [] [])
  = (Raise ValueError,
     mkWorld [] SDCard.__init__ [] [] [Log DEBUG (ParsingLine "a.gcode 12kb")]).
Proof.
  split; [reflexivity |]. split; [reflexivity |].
  exact (child_from_path_malformed 0 0%nat "a.gcode 12kb" "a.gcode 12kb"
           (SDCard.boot [] []) eq_refl eq_refl).
Defined.

Lemma set_add_In (h : list InternalFileTree) (s : list ref) (x : ref) :
  In x (InternalFileTree.set_add h s x).
Proof.
  unfold InternalFileTree.set_add.
  destruct (InternalFileTree.set_contains h s x) eqn:Hc.
  - unfold InternalFileTree.set_contains in Hc.
    apply existsb_exists in Hc as (y & Hy & Hm).
    apply set_match_same_object in Hm. now subst y.
  - apply in_or_app. right. now left.
Qed.

(** X16. When [child_from_path] returns, the node it returns is an
    element of the descendants set of the node it was called on (so that
    node is truthy), also when the file sits deeper in the tree. *)
Theorem child_from_path_registers (fuel : nat) (r added : ref) (line : string)
    (w w' : World) :
  InternalFileTree.child_from_path fuel r line w = (Ok added, w') ->
  exists o,
    heap w' !! r = Some o /\ In added (descendants_set o)
    /\ InternalFileTree.__bool__ r w' = (Ok true, w').
Proof.
  destruct fuel as [| fuel]; [discriminate |].
  intros H. simpl in H.
  apply bind_Ok in H as (_ & w1 & _ & H).
  apply bind_Ok in H as (c & w2 & _ & H).
  apply bind_Ok in H as (h & w3 & Hh & H).
  apply bind_Ok in H as (u & w4 & Hm & H).
  unfold modify, load, read, deref in Hm. rewrite bind_unfold in Hm.
  destruct (heap w3 !! r) as [o |] eqn:Hr; [| discriminate].
  injection Hm as _ Hw4. injection H as Hadd Hw'. subst w' w4 added.
  assert (Hl : (<[r := InternalFileTree.with_descendants_set
                         (InternalFileTree.set_add h (descendants_set o) c) o]>
                  (heap w3)) !! r
               = Some (InternalFileTree.with_descendants_set
                         (InternalFileTree.set_add h (descendants_set o) c) o)).
  { apply list_lookup_insert_eq. now apply lookup_lt_Some in Hr. }
  eexists. split; [exact Hl |]. split; [apply set_add_In |].
  unfold InternalFileTree.__bool__. rewrite bind_unfold.
  erewrite load_lookup by exact Hl. simpl.
  pose proof (set_add_nonempty h (descendants_set o) c) as Hne.
  destruct (InternalFileTree.set_add h (descendants_set o) c);
    [now contradiction Hne | reflexivity].
Qed.

Lemma child_from_path_registers_witness :
  let w := mkWorld [mount_node] SDCard.__init__ [] [] [] in
  let r := InternalFileTree.child_from_path 8 0%nat "a/b 1" w in
  r = (Ok 2%nat, snd r) /\
  exists o,
    heap (snd r) !! 0%nat = Some o /\ In 2%nat (descendants_set o)
    /\ InternalFileTree.__bool__ 0%nat (snd r) = (Ok true, snd r).
Proof.
  assert (H : InternalFileTree.child_from_path 8 0%nat "a/b 1"
                (mkWorld [mount_node] SDCard.__init__ [] [] [])
              = (Ok 2%nat,
                 snd (InternalFileTree.child_from_path 8 0%nat "a/b 1"
                        (mkWorld [mount_node] SDCard.__init__ [] [] []))))
    by (vm_compute; reflexivity).
  exact (conj H (child_from_path_registers _ _ _ _ _ _ H)).
Defined.

(** X17. No node of a tree returned by [to_api_file_tree] has an empty
    list of children, at any depth: a node without children has [None]
    there, and the root copies the type name, the name and the metadata of
    the node it converts. *)
Theorem to_api_file_tree_no_empty_children (fuel : nat) :
  forall (h : list InternalFileTree) (r : ref) (t : FileTree),
    InternalFileTree.to_api_file_tree_rec fuel h r = Ok t ->
    no_empty_children t /\
    exists o,
      h !! r = Some o /\
      api_type t = FileType_name (type o) /\ api_path t = path o /\
      api_ro t = ro o /\ api_size t = size o /\
      api_m_date t = m_date o /\ api_m_time t = m_time o /\
      length (default [] (api_children t)) = length (children_dict o).
Proof.
  induction fuel as [| fuel IH]; intros h r t H; [discriminate |].
  cbn [InternalFileTree.to_api_file_tree_rec] in H. unfold deref in H.
  destruct (h !! r) as [o |] eqn:Hr; simpl in H; [| discriminate].
  destruct (mapM _ _) as [cs | e |] eqn:Hm; simpl in H; try discriminate.
  injection H as <-. apply mapM_Ok_Forall2 in Hm.
  split.
  - assert (Hall : (fix all (l : list FileTree) : Prop :=
                      match l with
                      | [] => True
                      | c :: l' => no_empty_children c /\ all l'
                      end) cs).
    { induction Hm as [| x c xs cs' Hx Hm IHm]; [exact I |].
      split; [exact (proj1 (IH _ _ _ Hx)) | exact IHm]. }
    simpl. destruct cs as [| c cs]; [exact I |]. split; [discriminate | exact Hall].
  - exists o. repeat split.
    apply Forall2_length in Hm. unfold dict_values in Hm.
    rewrite length_map in Hm. simpl. destruct cs; simpl in *; congruence.
Qed.

Lemma to_api_file_tree_no_empty_children_witness :
  InternalFileTree.to_api_file_tree_rec 2 [mount_node] 0%nat = Ok empty_mount /\
  no_empty_children empty_mount.
Proof.
  assert (H : InternalFileTree.to_api_file_tree_rec 2 [mount_node] 0%nat
              = Ok empty_mount) by reflexivity.
  exact (conj H (proj1 (to_api_file_tree_no_empty_children _ _ _ _ H))).
Defined.

(** ** More on the diff *)

Lemma set_match_refl (h : list InternalFileTree) (x : ref) :
  InternalFileTree.set_match h x x = true.
Proof.
  unfold InternalFileTree.set_match.
  rewrite bool_decide_eq_true_2 by reflexivity. now rewrite Nat.eqb_refl.
Qed.

Lemma set_contains_In (h : list InternalFileTree) (s : list ref) (x : ref) :
  In x s -> InternalFileTree.set_contains h s x = true.
Proof.
  intros Hx. unfold InternalFileTree.set_contains. apply existsb_exists.
  exists x. split; [exact Hx | apply set_match_refl].
Qed.

Lemma set_difference_self (h : list InternalFileTree) (s : list ref) :
  InternalFileTree.set_difference h s s = [].
Proof.
  unfold InternalFileTree.set_difference.
  assert (H : forall l, (forall x, In x l -> In x s) ->
              List.filter (fun x => negb (InternalFileTree.set_contains h s x)) l = []).
  { induction l as [| x l IH]; intros Hl; [reflexivity |]. simpl.
    rewrite set_contains_In by (apply Hl; now left). simpl.
    apply IH. intros y Hy. apply Hl. now right. }
  apply H. auto.
Qed.

(** X18. Diffing a tree against itself finds nothing: both sets are
    empty, nothing is logged and nothing changes. *)
Theorem diff_self (order_removed order_new : list nat) (w : World) (a : ref)
    (o : InternalFileTree) :
  heap w !! a = Some o ->
  InternalFileTree.diff_removed_files (heap w) a a = Ok [] /\
  InternalFileTree.diff_new_files (heap w) a a = Ok [] /\
  InternalFileTree.diff order_removed order_new a a w = (Ok tt, w).
Proof.
  intros Ha.
  assert (Hr : InternalFileTree.diff_removed_files (heap w) a a = Ok []).
  { unfold InternalFileTree.diff_removed_files, deref. rewrite Ha. simpl.
    now rewrite set_difference_self. }
  split; [exact Hr |]. split; [exact Hr |].
  rewrite (diff_logs_changes order_removed order_new w a a [] [] Hr eq_refl).
  rewrite set_iter_empty. simpl. rewrite app_nil_r. now destruct w.
Qed.

Lemma diff_self_witness :
  let w := snd (SDCard.construct_file_tree (SDCard.boot [mkCollected ["x 1"; "d/y 2"]] [])) in
  (exists o, heap w !! 0%nat = Some o) /\
  InternalFileTree.diff [1%nat] [] 0%nat 0%nat w = (Ok tt, w).
Proof.
  assert (H : heap (snd (SDCard.construct_file_tree
                           (SDCard.boot [mkCollected ["x 1"; "d/y 2"]] []))) !! 0%nat
              = Some (mkInternalFileTree MOUNT "SD Card" (Some true) None None None
                        [1; 3]%nat [("x", 1%nat); ("d", 2%nat)] None "/"))
    by (vm_compute; reflexivity).
  split; [eexists; exact H |].
  exact (proj2 (proj2 (diff_self [1%nat] [] _ _ _ H))).
Defined.

(** X19. Because both of its sets are the same set, [diff] classifies
    every file it finds as changed: whatever the two trees and the order
    of the loops, a call that returns has logged one "changed" record per
    file of the difference, and never a "removed" or a "created" one; the
    store and the instance are untouched. *)
Theorem diff_only_reports_changes (order_removed order_new : list nat)
    (w : World) (a b : ref) (u : unit) (w' : World) :
  InternalFileTree.diff order_removed order_new a b w = (Ok u, w') ->
  exists files evs,
    InternalFileTree.diff_removed_files (heap w) a b = Ok files /\
    w' = mkWorld (heap w) (self w) (listings w) (probes w) (trace w ++ evs) /\
    forallb is_changed_log evs = true /\
    length evs = length files.
Proof.
  intros H.
  destruct (InternalFileTree.diff_removed_files (heap w) a b) as [files | x |] eqn:Hfiles.
  2, 3: unfold InternalFileTree.diff, read in H; rewrite bind_unfold, Hfiles in H;
    discriminate H.
  destruct (mapM (fun f => o ← deref (heap w) f; Ok (full_path o)) files)
    as [paths | x |] eqn:Hmap.
  2, 3: unfold InternalFileTree.diff, read in H;
    unfold mbind at 1 2 3, M_mbind at 1 2 3, M_bind at 1 2 3 in H; cbv beta in H;
    change (InternalFileTree.diff_new_files (heap w) a b)
      with (InternalFileTree.diff_removed_files (heap w) a b) in H;
    rewrite Hfiles in H; unfold InternalFileTree.full_paths in H;
    rewrite Hmap in H; discriminate H.
  rewrite (diff_logs_changes order_removed order_new w a b files paths Hfiles Hmap) in H.
  injection H as _ <-.
  exists files, (map (fun p => Log DEBUG (FileChanged p)) (set_iter order_removed paths)).
  split; [reflexivity |]. split; [reflexivity |]. split; [apply changed_records |].
  rewrite length_map, set_iter_length. symmetry.
  exact (Forall2_length _ _ _ (mapM_Ok_Forall2 _ _ _ Hmap)).
Qed.

Lemma diff_only_reports_changes_witness :
  let '(r, w) := build_two ["x 1"; "y 2"] ["y 2"; "z 3"] in
  InternalFileTree.diff [1%nat] [] 0%nat 3%nat w
  = (Ok tt, snd (InternalFileTree.diff [1%nat] [] 0%nat 3%nat w)) /\
  exists files evs,
    InternalFileTree.diff_removed_files (heap w) 0%nat 3%nat = Ok files /\
    snd (InternalFileTree.diff [1%nat] [] 0%nat 3%nat w)
    = mkWorld (heap w) (self w) (listings w) (probes w) (trace w ++ evs) /\
    forallb is_changed_log evs = true /\
    length evs = length files.
Proof.
  destruct (build_two ["x 1"; "y 2"] ["y 2"; "z 3"]) as [r w] eqn:Hb.
  assert (H : InternalFileTree.diff [1%nat] [] 0%nat 3%nat w
              = (Ok tt, snd (InternalFileTree.diff [1%nat] [] 0%nat 3%nat w))).
  { vm_compute in Hb. injection Hb as _ <-. vm_compute. reflexivity. }
  exact (conj H (diff_only_reports_changes _ _ _ _ _ _ _ H)).
Defined.

(** ** Paths *)

Lemma get_full_path_loop_S (h : list InternalFileTree) (fuel : nat) (r : ref)
    (o : InternalFileTree) (segments : list string) :
  h !! r = Some o ->
  InternalFileTree.get_full_path_loop (S fuel) h r segments
  = match _parent o with
    | None => Ok segments
    | Some p => InternalFileTree.get_full_path_loop fuel h p (segments ++ [path o])
    end.
Proof. intros H. simpl. unfold deref. now rewrite H. Qed.

Lemma get_full_path_loop_acc (h : list InternalFileTree) (fuel : nat) :
  forall (r : ref) (segments result : list string),
    InternalFileTree.get_full_path_loop fuel h r segments = Ok result ->
    exists tl,
      result = segments ++ tl /\
      forall segments',
        InternalFileTree.get_full_path_loop fuel h r segments' = Ok (segments' ++ tl).
Proof.
  induction fuel as [| fuel IH]; intros r segments result H; [discriminate |].
  simpl in *. destruct (deref h r) as [o | x |]; simpl in *; try discriminate.
  destruct (_parent o) as [p |].
  - apply IH in H as (tl & -> & Hall). exists (path o :: tl). split.
    + now rewrite <- app_assoc.
    + intros segments'. rewrite Hall, <- app_assoc. reflexivity.
  - injection H as <-. exists []. split; [now rewrite app_nil_r |].
    intros segments'. now rewrite app_nil_r.
Qed.

Lemma get_full_path_loop_more_fuel (h : list InternalFileTree) (fuel : nat) :
  forall (r : ref) (segments result : list string),
    InternalFileTree.get_full_path_loop fuel h r segments = Ok result ->
    InternalFileTree.get_full_path_loop (S fuel) h r segments = Ok result.
Proof.
  induction fuel as [| fuel IH]; intros r segments result H; [discriminate |].
  simpl in H. change (InternalFileTree.get_full_path_loop (S (S fuel)) h r segments)
    with (o ← deref h r;
          match _parent o with
          | None => Ok segments
          | Some p => InternalFileTree.get_full_path_loop (S fuel) h p (segments ++ [path o])
          end).
  destruct (deref h r) as [o | x |]; simpl in *; try discriminate.
  destruct (_parent o) as [p |]; [now apply IH | exact H].
Qed.

Lemma string_app_assoc (a b c : string) :
  ((a +:+ b) +:+ c = a +:+ (b +:+ c))%string.
Proof.
  induction a as [| x a IH]; [reflexivity |].
  change (String x ((a +:+ b) +:+ c) = String x (a +:+ (b +:+ c)))%string.
  now rewrite IH.
Qed.

Lemma join_snoc (sep : string) (xs : list string) (x y : string) :
  Str.join sep ((x :: xs) ++ [y]) = (Str.join sep (x :: xs) +:+ sep +:+ y)%string.
Proof.
  revert x. induction xs as [| z xs IH]; intros x; [reflexivity |].
  change (Str.join sep ((x :: z :: xs) ++ [y]))
    with (x +:+ sep +:+ Str.join sep ((z :: xs) ++ [y]))%string.
  rewrite IH.
  change (Str.join sep (x :: z :: xs)) with (x +:+ sep +:+ Str.join sep (z :: xs))%string.
  now rewrite !string_app_assoc.
Qed.

(** The segments collected from a node: none exactly when it has no
    parent. *)
Lemma get_full_path_loop_root (h : list InternalFileTree) (fuel : nat) (p : ref)
    (op : InternalFileTree) (tl : list string) :
  h !! p = Some op ->
  InternalFileTree.get_full_path_loop fuel h p [] = Ok tl ->
  match _parent op with
  | None => tl = []
  | Some _ => exists x xs, rev tl = x :: xs
  end.
Proof.
  intros Hop H. destruct fuel as [| fuel]; [discriminate |].
  simpl in H. unfold deref in H. rewrite Hop in H. simpl in H.
  destruct (_parent op) as [q |]; [| now injection H as <-].
  apply get_full_path_loop_acc in H as (tl' & -> & _).
  simpl. destruct (rev tl' ++ [path op]) as [| x xs] eqn:E.
  - now apply app_nil in E as [_ E].
  - now exists x, xs.
Qed.

(** X20. [get_full_path] on an acyclic store: the root's path is "/"; a
    node directly under a root has "/" followed by its own name; any
    deeper node has its parent's full path, "/" and its own name. *)
Theorem get_full_path_step (w : World) (r : ref) (o : InternalFileTree) :
  wf_heap (heap w) ->
  heap w !! r = Some o ->
  match _parent o with
  | None => InternalFileTree.get_full_path r w = (Ok "/"%string, w)
  | Some p =>
      exists op pp,
        heap w !! p = Some op /\
        InternalFileTree.get_full_path p w = (Ok pp, w) /\
        InternalFileTree.get_full_path r w
        = (Ok (match _parent op with
               | None => "/" +:+ path o
               | Some _ => pp +:+ "/" +:+ path o
               end)%string, w)
  end.
Proof.
  intros Hwf Ho. unfold InternalFileTree.get_full_path, read.
  pose proof (Hwf r o Ho) as [_ Hp].
  assert (Hr : (r < length (heap w))%nat) by (eapply lookup_lt_Some; exact Ho).
  rewrite (get_full_path_loop_S _ _ _ _ _ Ho).
  destruct (_parent o) as [p |]; [| reflexivity].
  destruct (lookup_valid (heap w) p ltac:(lia)) as [op Hop].
  destruct (get_full_path_loop_total (heap w) (length (heap w)) Hwf p [] ltac:(lia) ltac:(lia))
    as [tl Htl].
  pose proof (get_full_path_loop_acc _ _ _ _ _ Htl) as (tl' & E & Hacc).
  simpl in E. subst tl'.
  pose proof (get_full_path_loop_more_fuel _ _ _ _ _ Htl) as Hm.
  pose proof (get_full_path_loop_root _ _ _ _ _ Hop Htl) as Hroot.
  exists op, ("/" +:+ Str.join "/" (rev tl))%string. split; [exact Hop |]. split.
  - now rewrite Hm.
  - rewrite Hacc. cbn [mbind Outcome_mbind Outcome_bind app rev].
    destruct (_parent op) as [q |].
    + destruct Hroot as (x & xs & ->). rewrite join_snoc.
      now rewrite !string_app_assoc.
    + subst tl. reflexivity.
Qed.

Lemma get_full_path_step_witness :
  let w := snd (SDCard.construct_file_tree
                  (SDCard.boot [mkCollected ["models/benchy.gco 1024"]] [])) in
  wf_heap (heap w) /\
  exists o,
    heap w !! 2%nat = Some o /\
    _parent o = Some 1%nat /\
    InternalFileTree.get_full_path 1%nat w = (Ok "/models", w) /\
    InternalFileTree.get_full_path 2%nat w = (Ok "/models/benchy.gco", w).
Proof.
  set (w0 := SDCard.boot [mkCollected ["models/benchy.gco 1024"]] []).
  assert (Hwf : wf_heap (heap (snd (SDCard.construct_file_tree w0)))).
  { pose proof (returns_construct_file_tree w0 wf_heap_nil) as H.
    destruct (SDCard.construct_file_tree w0) as [[t | x |] w1] eqn:E.
    - apply H.
    - vm_compute in E. discriminate E.
    - contradiction. }
  split; [exact Hwf |].
  destruct (heap (snd (SDCard.construct_file_tree w0)) !! 2%nat) as [o |] eqn:Ho;
    [| vm_compute in Ho; discriminate Ho].
  pose proof (get_full_path_step _ 2%nat o Hwf Ho) as H.
  exists o. split; [reflexivity |].
  assert (Hp : _parent o = Some 1%nat).
  { vm_compute in Ho. injection Ho as <-. reflexivity. }
  split; [exact Hp |]. rewrite Hp in H.
  destruct H as (op & pp & Hop & H1 & H2).
  assert (Hpp : _parent op = Some 0%nat /\ path o = "benchy.gco").
  { vm_compute in Hop, Ho. injection Hop as <-. injection Ho as <-. split; reflexivity. }
  destruct Hpp as [Hpp Hn]. rewrite Hpp, Hn in H2.
  assert (E : pp = "/models").
  { pose proof H1 as H1'. vm_compute in H1'. now injection H1' as <-. }
  subst pp. split; [exact H1 | exact H2].
Defined.

(** ** A well-formed line *)

(** A reference that is not in a set is appended by [add]. *)
Lemma set_add_fresh (h : list InternalFileTree) (s : list ref) (x : ref) :
  ~ In x s -> InternalFileTree.set_add h s x = s ++ [x].
Proof.
  intros Hn. unfold InternalFileTree.set_add.
  destruct (InternalFileTree.set_contains h s x) eqn:Hc; [| reflexivity].
  unfold InternalFileTree.set_contains in Hc.
  apply existsb_exists in Hc as (y & Hy & Hm).
  apply set_match_same_object in Hm. now subst y.
Qed.

Section Store.

Context (h : list InternalFileTree) (r : ref) (x y : InternalFileTree).

Lemma deref_app_new (n : nat) : n = length h -> deref (h ++ [x]) n = Ok x.
Proof. intros ->. unfold deref. now rewrite list_lookup_middle. Qed.

Lemma deref_app_old : (r < length h)%nat -> deref (h ++ [x]) r = deref h r.
Proof. intros H. unfold deref. now rewrite lookup_app_l. Qed.

Lemma deref_insert : (r < length h)%nat -> deref (<[r := y]> h) r = Ok y.
Proof. intros H. unfold deref. now rewrite list_lookup_insert_eq. Qed.

Lemma insert_app_old :
  (r < length h)%nat -> <[r := y]> (h ++ [x]) = <[r := y]> h ++ [x].
Proof. intros H. now apply insert_app_l. Qed.

Lemma insert_app_new (n : nat) : n = length h -> <[n := y]> (h ++ [x]) = h ++ [y].
Proof.
  intros ->. rewrite insert_app_r_alt by lia. now rewrite Nat.sub_diag.
Qed.

Lemma deref_lookup : h !! r = Some x -> deref h r = Ok x.
Proof. intros H. unfold deref. now rewrite H. Qed.

End Store.

Ltac store_side := rewrite ?length_insert; first [reflexivity | lia].

Ltac store_step :=
  first [ rewrite deref_app_new by store_side
        | rewrite deref_app_old by store_side
        | rewrite deref_insert by store_side
        | rewrite insert_app_old by store_side
        | rewrite insert_app_new by store_side
        | erewrite deref_lookup by eassumption ];
  cbn -[InternalFileTree.child_from_path InternalFileTree.to_api_file_tree_rec
        for_each String.length Str.lower deref lookup insert length].

(** The bound of [true_div_overflows], as an inequality. *)
Lemma true_div_fits (n : Z) :
  (Z.abs n < 1000 * (2 ^ 1024 - 2 ^ 970))%Z -> true_div_overflows n 1000 = false.
Proof. intros H. unfold true_div_overflows. now apply Z.leb_gt. Qed.

(** X21. A line "name size" without a directory part, parsed on a root
    node, where the size is a text of at most 4300 characters (the longest
    number every interpreter converts) that [int] accepts and whose
    thousandth fits a float: [child_from_path] returns a new node of type
    FILE with that name, the size read as a number, no read-only flag, date
    or time, the root as its parent and "/name" as its full path; the root
    has the node in its dict under the name (in place of an earlier entry
    of that name) and as a further element of its descendants set; three
    debug records are logged. *)
Theorem child_from_path_file (fuel : nat) (r : ref) (line p name str_size : string)
    (n : Z) (o : InternalFileTree) (w : World) :
  Str.split1 "/" (Str.strip "/" line) = [p] ->
  Str.split " " p = [name; str_size] ->
  (String.length str_size <= 4300)%nat ->
  Str.int str_size = Some n ->
  (Z.abs n < 1000 * (2 ^ 1024 - 2 ^ 970))%Z ->
  heap w !! r = Some o ->
  _parent o = None ->
  Forall (fun x => (x < length (heap w))%nat) (descendants_set o) ->
  let new := length (heap w) in
  InternalFileTree.child_from_path (S fuel) r line w
  = (Ok new,
     mkWorld
       (<[r := mkInternalFileTree (type o) (path o) (ro o) (size o) (m_date o) (m_time o)
                 (descendants_set o ++ [new])
                 (dict_set name new (children_dict o)) None (full_path o)]> (heap w)
        ++ [mkInternalFileTree FILE name None (Some n) None None [] [] (Some r)
              ("/" +:+ name)%string])
       (self w) (listings w) (probes w)
       (trace w ++ [Log DEBUG (ParsingLine line); Log DEBUG (AddedFile name n);
                    Log DEBUG (ChildAdded name)])).
Proof.
  intros Hsplit Hp _ Hint Hfits Ho Hroot Hds new.
  apply true_div_fits in Hfits.
  assert (Hr : (r < length (heap w))%nat) by (eapply lookup_lt_Some; exact Ho).
  cbn [InternalFileTree.child_from_path].
  rewrite Hsplit. cbn [hd]. rewrite Hp, Hint, Hfits.
  rewrite bind_unfold. unfold log_debug at 1, emit at 1.
  rewrite bind_unfold, bind_unfold, init_without_parent.
  destruct w as [h s ls ps tr]. cbn [heap self listings probes trace] in *.
  unfold InternalFileTree.add_child, InternalFileTree.set_parent, modify,
    InternalFileTree.get_full_path.
  run. repeat store_step.
  rewrite length_app, length_insert, Nat.add_1_r.
  erewrite get_full_path_loop_S
    by (rewrite lookup_app_l by store_side; apply list_lookup_insert_eq; lia).
  cbn [_parent InternalFileTree.with_children_dict]. rewrite Hroot.
  cbn -[deref lookup insert length]. repeat store_step.
  rewrite set_add_fresh.
  2:{ intros Hin. apply list_elem_of_In in Hin. rewrite Forall_forall in Hds.
      apply Hds in Hin. lia. }
  rewrite list_insert_insert_eq.
  unfold InternalFileTree.with_descendants_set, InternalFileTree.with_children_dict,
    InternalFileTree.with_full_path, InternalFileTree.with_parent.
  cbn -[insert length]. rewrite Hroot, <- !app_assoc. reflexivity.
Qed.

Lemma child_from_path_file_witness :
  Str.split1 "/" (Str.strip "/" "/benchy.gco 1024") = ["benchy.gco 1024"] /\
  Str.split " " "benchy.gco 1024" = ["benchy.gco"; "1024"] /\
  (String.length "1024" <= 4300)%nat /\
  Str.int "1024" = Some 1024 /\
  (Z.abs 1024 < 1000 * (2 ^ 1024 - 2 ^ 970))%Z /\
  InternalFileTree.child_from_path 1 0%nat "/benchy.gco 1024"
    (mkWorld [mount_node] SDCard.__init__ [] [] [])
  = (Ok 1%nat,
     mkWorld
       [mkInternalFileTree MOUNT "SD Card" (Some true) None None None
          [1%nat] [("benchy.gco", 1%nat)] None "/";
        mkInternalFileTree FILE "benchy.gco" None (Some 1024) None None [] []
          (Some 0%nat) "/benchy.gco"]
       SDCard.__init__ [] []
       [Log DEBUG (ParsingLine "/benchy.gco 1024");
        Log DEBUG (AddedFile "benchy.gco" 1024);
        Log DEBUG (ChildAdded "benchy.gco")]).
Proof.
  assert (Hlen : (String.length "1024" <= 4300)%nat) by (vm_compute; lia).
  assert (Hfits : (Z.abs 1024 < 1000 * (2 ^ 1024 - 2 ^ 970))%Z) by (vm_compute; reflexivity).
  split; [reflexivity |]. split; [reflexivity |]. split; [exact Hlen |].
  split; [reflexivity |]. split; [exact Hfits |].
  exact (child_from_path_file 0 0%nat "/benchy.gco 1024" "benchy.gco 1024"
           "benchy.gco" "1024" 1024 mount_node
           (mkWorld [mount_node] SDCard.__init__ [] [] [])
           eq_refl eq_refl Hlen eq_refl Hfits eq_refl eq_refl (List.Forall_nil _)).
Defined.

(** X24. A line "name size" without a directory part whose size is a text
    of at most 4300 characters that [int] accepts, but whose thousandth
    does not fit a float: building the text
    of the record "Added a file" raises [OverflowError] after the node has
    been created and before it is added. The node the call was made on is
    untouched, the new node is left in no dict and no set and without a
    parent, and only the record of the line being parsed is logged. *)
Theorem child_from_path_overflow (fuel : nat) (r : ref) (line p name str_size : string)
    (n : Z) (w : World) :
  Str.split1 "/" (Str.strip "/" line) = [p] ->
  Str.split " " p = [name; str_size] ->
  (String.length str_size <= 4300)%nat ->
  Str.int str_size = Some n ->
  (1000 * (2 ^ 1024 - 2 ^ 970) <= Z.abs n)%Z ->
  InternalFileTree.child_from_path (S fuel) r line w
  = (Raise OverflowError,
     mkWorld
       (heap w ++ [mkInternalFileTree FILE name None (Some n) None None [] [] None "/"])
       (self w) (listings w) (probes w)
       (trace w ++ [Log DEBUG (ParsingLine line)])).
Proof.
  intros Hsplit Hp _ Hint Hbig.
  assert (Hov : true_div_overflows n 1000 = true)
    by (unfold true_div_overflows; now apply Z.leb_le).
  cbn [InternalFileTree.child_from_path].
  rewrite Hsplit. cbn [hd]. rewrite Hp, Hint, Hov.
  rewrite bind_unfold. unfold log_debug at 1, emit at 1.
  rewrite bind_unfold, bind_unfold, init_without_parent.
  reflexivity.
Qed.

Lemma child_from_path_overflow_witness :
  Str.split1 "/" (Str.strip "/" huge_line) = [huge_line] /\
  Str.split " " huge_line = ["benchy.gco"; huge_size] /\
  (String.length huge_size <= 4300)%nat /\
  Str.int huge_size = Some (10 ^ 312) /\
  (1000 * (2 ^ 1024 - 2 ^ 970) <= Z.abs (10 ^ 312))%Z /\
  InternalFileTree.child_from_path 1 0%nat huge_line
    (mkWorld [mount_node] SDCard.__init__ [] [] [])
  = (Raise OverflowError,
     mkWorld
       [mount_node;
        mkInternalFileTree FILE "benchy.gco" None (Some (10 ^ 312)) None None [] [] None "/"]
       SDCard.__init__ [] [] [Log DEBUG (ParsingLine huge_line)]).
Proof.
  assert (H1 : Str.split1 "/" (Str.strip "/" huge_line) = [huge_line])
    by (vm_compute; reflexivity).
  assert (H2 : Str.split " " huge_line = ["benchy.gco"; huge_size])
    by (vm_compute; reflexivity).
  assert (Hlen : (String.length huge_size <= 4300)%nat) by (vm_compute; lia).
  assert (H3 : Str.int huge_size = Some (10 ^ 312)%Z) by (vm_compute; reflexivity).
  assert (H4 : (1000 * (2 ^ 1024 - 2 ^ 970) <= Z.abs (10 ^ 312))%Z)
    by (vm_compute; discriminate).
  split; [exact H1 |]. split; [exact H2 |]. split; [exact Hlen |].
  split; [exact H3 |]. split; [exact H4 |].
  exact (child_from_path_overflow 0 0%nat huge_line huge_line "benchy.gco" huge_size
           (10 ^ 312) (mkWorld [mount_node] SDCard.__init__ [] [] []) H1 H2 Hlen H3 H4).
Defined.

(** ** Letter case *)

Lemma lower_char_idempotent (a : ascii) :
  Str.lower_char (Str.lower_char a) = Str.lower_char a.
Proof.
  destruct a as [[] [] [] [] [] [] [] []]; vm_compute; reflexivity.
Qed.

Lemma lower_idempotent (s : string) : Str.lower (Str.lower s) = Str.lower s.
Proof.
  induction s as [| a s IH]; [reflexivity |].
  cbn [Str.lower]. now rewrite lower_char_idempotent, IH.
Qed.

Lemma for_each_map {A B} (f : A -> B) (xs : list A) (body : B -> M unit) :
  for_each (map f xs) body = for_each xs (fun x => body (f x)).
Proof.
  induction xs as [| x xs IH]; [reflexivity |].
  cbn [map for_each]. now rewrite IH.
Qed.

Lemma for_each_ext {A} (xs : list A) (body body' : A -> M unit) :
  (forall x, body x = body' x) -> for_each xs body = for_each xs body'.
Proof.
  intros H. induction xs as [| x xs IH]; [reflexivity |].
  cbn [for_each]. now rewrite H, IH.
Qed.

(** X22. [construct_file_tree] does not see the letter case of the
    listing: outside state [ABSENT], a reply and the same reply with every
    line in lower case give the same result, the same store and the same
    trace. *)
Theorem construct_file_tree_ignores_case (h : list InternalFileTree) (s : SDCard)
    (c : Collected) (ls : list Collected) (ps : list Matchable) (tr : list Event) :
  sd_state s <> ABSENT ->
  SDCard.construct_file_tree
    (mkWorld h s (mkCollected (map Str.lower (captured_matches c)) :: ls) ps tr)
  = SDCard.construct_file_tree (mkWorld h s (c :: ls) ps tr).
Proof.
  intros Hs. unfold SDCard.construct_file_tree.
  rewrite !bind_unfold, !init_without_parent.
  unfold SDCard.enqueue_collecting, SDCard.wait_for_collecting, SDCard.next_listing.
  run.
  destruct (SDState_eqb (sd_state s) ABSENT) eqn:E.
  { destruct (sd_state s); try discriminate E. now contradiction Hs. }
  cbn -[InternalFileTree.child_from_path for_each String.length Str.lower length].
  rewrite for_each_map.
  erewrite for_each_ext; [reflexivity |].
  intros line. cbv beta. now rewrite lower_idempotent.
Qed.

Lemma construct_file_tree_ignores_case_witness :
  UNSURE <> ABSENT /\
  SDCard.construct_file_tree
    (mkWorld [] SDCard.__init__ [mkCollected ["models/benchy.gco 1024"]] [] [])
  = SDCard.construct_file_tree
      (mkWorld [] SDCard.__init__ [mkCollected ["MODELS/Benchy.GCO 1024"]] [] []).
Proof.
  split; [discriminate |].
  exact (construct_file_tree_ignores_case [] SDCard.__init__
           (mkCollected ["MODELS/Benchy.GCO 1024"]) [] [] []
           ltac:(discriminate)).
Defined.

(** ** The store over a whole run *)

(** X23. However cycles and insertion notifications follow each other
    after the construction of the instance, a run that returns leaves a
    store in which every node was created after its parent and before each
    of its children, and in which the stored tree, if there is one, is a
    node of the store; so no node is its own ancestor, and the walks of
    [get_full_path] and [to_api_file_tree] end. No step of such a run
    meets a reference to a missing object. *)
Theorem run_keeps_store_acyclic (ls : list Collected) (ps : list Matchable)
    (stimuli : list Stimulus) :
  returns (for_each stimuli react (SDCard.boot ls ps)) (fun _ w' => wf_world w').
Proof. exact (run_never_stuck stimuli _ (wf_world_boot ls ps)). Qed.
